(** * A shallow embedding of the logging core of bladeski/logger

    The development follows the TypeScript sources:
    - [enums]                         (LogLevel)
    - [interfaces]                    (ILogEntry, ILoggingConfiguration, options)
    - [core/InMemoryCoreLogger.ts]    (bounded buffer, serializer, normalizer)
    - [core/LocalStorageCoreLogger]   (persistent sink)
    - [core/ConsoleCoreLogger]        (console sink)
    - [LoggingService]                (singleton facade, broadcast, initialize)

    JavaScript values live in an explicit heap so that object identity,
    aliasing and cycles are visible; the host facilities used by the code
    (localStorage, console, the clock, the call stack) are fields of an
    explicit world that every operation threads. Operations that can raise
    live in a small state-and-exception monad, in which [try_catch] and
    [for_of] behave as [try]/[catch] and [for ... of] do.

    Limits of the model: numbers are integers; objects have ordinary
    prototypes and no getters; property names are not array indices, so the
    order of a field list is the insertion order; a [Date] is identified
    with its ISO-8601 text; time does not advance during a call. *)

From Stdlib Require Import Ascii ZArith Lia.
From stdpp Require Import gmap strings list pretty.

Set Warnings "-register-all".

Local Open Scope string_scope.
Local Open Scope list_scope.
Local Open Scope Z_scope.

(** ** enums: LogLevel *)

Inductive LogLevel := TRACE | DEBUG | INFO | SUCCESS | WARN | ERROR | FATAL.

#[global] Instance LogLevel_eq_dec : EqDecision LogLevel.
Proof. solve_decision. Defined.

(** The string value of each enum member. *)
Definition level_value (l : LogLevel) : string :=
  match l with
  | TRACE => "trace" | DEBUG => "debug" | INFO => "info" | SUCCESS => "success"
  | WARN => "warn" | ERROR => "error" | FATAL => "fatal"
  end.

(** [String(level).toUpperCase()] *)
Definition level_upper (l : LogLevel) : string :=
  match l with
  | TRACE => "TRACE" | DEBUG => "DEBUG" | INFO => "INFO" | SUCCESS => "SUCCESS"
  | WARN => "WARN" | ERROR => "ERROR" | FATAL => "FATAL"
  end.

(** ** JavaScript values

    A value is a primitive, a function (kept as its source text), a
    reference to a heap object (which has identity and may be aliased or
    cyclic), or an object/array literal freshly built by the logger itself
    ([VObj], [VArr]): those are unaliased, so they are represented by value.
    Numbers are restricted to integers. *)

Inductive JsVal :=
| VUndefined
| VNull
| VBool (b : bool)
| VNum (n : Z)
| VStr (s : string)
| VFun (src : string)
| VRef (a : nat)
| VObj (fields : list (string * JsVal))
| VArr (elems : list JsVal).

(** Heap objects, by the classes the serializers distinguish with
    [instanceof]. A [Date] is represented by the results of its
    [toISOString()] and [toString()], a [RegExp] by its [toString()]. *)
Inductive HeapObj :=
| OPlain (fields : list (string * JsVal))
| OArray (elems : list JsVal)
| OError (name message : string) (stack : JsVal)
| ODate (iso text : string)
| ORegExp (text : string)
| OMap (entries : list (JsVal * JsVal))
| OSet (values : list JsVal).

(** The heap: the address of an object is its index. *)
Abbreviation Heap := (list HeapObj).

(** JavaScript truthiness, as used by [x ? a : b], [x || y] and [x && y]. *)
Definition truthy (v : JsVal) : bool :=
  match v with
  | VUndefined | VNull => false
  | VBool b => b
  | VNum n => negb (n =? 0)
  | VStr s => negb (String.eqb s "")
  | _ => true
  end.

Definition is_undefined (v : JsVal) : bool :=
  match v with VUndefined => true | _ => false end.

(** *** Objects as ordered field lists *)

Fixpoint get_field (k : string) (fields : list (string * JsVal)) : option JsVal :=
  match fields with
  | [] => None
  | (k', v) :: rest => if String.eqb k k' then Some v else get_field k rest
  end.

(** [obj[k] = v]: overwrite in place when the key exists, append otherwise. *)
Fixpoint set_field (k : string) (v : JsVal) (fields : list (string * JsVal))
  : list (string * JsVal) :=
  match fields with
  | [] => [(k, v)]
  | (k', v') :: rest =>
      if String.eqb k k' then (k, v) :: rest else (k', v') :: set_field k v rest
  end.

(** [{...dst, ...src}] continued on an object under construction. *)
Definition spread (src dst : list (string * JsVal)) : list (string * JsVal) :=
  fold_left (fun acc kv => set_field (fst kv) (snd kv) acc) src dst.

(** Index keys ["0"], ["1"], ... of an array, paired with its elements. *)
Fixpoint index_fields (i : nat) (elems : list JsVal) : list (string * JsVal) :=
  match elems with
  | [] => []
  | v :: rest => (pretty i, v) :: index_fields (S i) rest
  end.

(** Own enumerable properties of a value, as seen by object spread. *)
Definition own_enumerable (h : Heap) (v : JsVal) : list (string * JsVal) :=
  match v with
  | VObj fields => fields
  | VArr elems => index_fields 0 elems
  | VRef a =>
      match h !! a with
      | Some (OPlain fields) => fields
      | Some (OArray elems) => index_fields 0 elems
      | _ => []
      end
  | _ => []
  end.

(** Property read [v.k] on a value that is known not to be null/undefined. *)
Definition get_prop (h : Heap) (v : JsVal) (k : string) : JsVal :=
  match v with
  | VObj fields => default VUndefined (get_field k fields)
  | VRef a =>
      match h !! a with
      | Some (OPlain fields) => default VUndefined (get_field k fields)
      | Some (OError name message stack) =>
          if String.eqb k "name" then VStr name
          else if String.eqb k "message" then VStr message
          else if String.eqb k "stack" then stack
          else VUndefined
      | _ => VUndefined
      end
  | _ => VUndefined
  end.

(** [typeof v === 'object' && v !== null] *)
Definition is_object (v : JsVal) : bool :=
  match v with
  | VRef _ | VObj _ | VArr _ => true
  | _ => false
  end.

(** *** [String(value)] *)

Definition join_with (sep : string) (parts : list string) : string :=
  match parts with
  | [] => ""
  | p :: rest => fold_left (fun acc q => acc +:+ sep +:+ q) rest p
  end.

(** [Error.prototype.toString] *)
Definition error_text (name message : string) : string :=
  if String.eqb name "" then message
  else if String.eqb message "" then name
  else name +:+ ": " +:+ message.

(** [String(v)]. Arrays are joined with [","], with [null] and [undefined]
    elements rendered empty; an array met again while it is being joined is
    rendered empty as well (the engine's cycle guard in [join]). [path] is
    the list of arrays being joined; [fuel] bounds the nesting followed. *)
Fixpoint js_String (fuel : nat) (h : Heap) (path : list nat) (v : JsVal) : string :=
  match fuel with
  | O => ""
  | S fuel' =>
      let elem (path : list nat) (e : JsVal) : string :=
        match e with
        | VUndefined | VNull => ""
        | _ => js_String fuel' h path e
        end in
      match v with
      | VUndefined => "undefined"
      | VNull => "null"
      | VBool b => if b then "true" else "false"
      | VNum n => pretty n
      | VStr s => s
      | VFun src => src
      | VObj _ => "[object Object]"
      | VArr elems => join_with "," (map (elem path) elems)
      | VRef a =>
          match h !! a with
          | Some (OArray elems) =>
              if bool_decide (a ∈ path) then ""
              else join_with "," (map (elem (a :: path)) elems)
          | Some (OError name message _) => error_text name message
          | Some (ODate _ text) => text
          | Some (ORegExp text) => text
          | Some (OMap _) => "[object Map]"
          | Some (OSet _) => "[object Set]"
          | _ => "[object Object]"
          end
      end
  end.

(** *** [Array.prototype.slice(start)] *)

Definition js_slice {A : Type} (start : Z) (l : list A) : list A :=
  let len := Z.of_nat (length l) in
  let k := if start <? 0 then Z.max (len + start) 0 else Z.min start len in
  drop (Z.to_nat k) l.

(** ** The serializer shared by the in-memory and the storage sink

    [serializer] is the inner closure of [safeSerialize]. [seen] is the
    [WeakSet] the closure captures: addresses are added and never removed.
    [fuel] is the depth of the JavaScript call stack that is left: when it
    is used up the engine raises a [RangeError], modelled by [None]. An
    object literal built by the logger is referred to by nothing, so adding
    it to the set cannot be observed and is left out. *)

Definition circular_marker : JsVal := VStr "[Circular]".

(** Run [f] over a list from left to right, threading the [seen] set. *)
Fixpoint thread {A B : Type} (f : list nat → A → option (B * list nat))
    (seen : list nat) (xs : list A) : option (list B * list nat) :=
  match xs with
  | [] => Some ([], seen)
  | x :: rest =>
      match f seen x with
      | None => None
      | Some (y, seen1) =>
          match thread f seen1 rest with
          | None => None
          | Some (ys, seen2) => Some (y :: ys, seen2)
          end
      end
  end.

Definition on_field (ser : list nat → JsVal → option (JsVal * list nat))
    (seen : list nat) (kv : string * JsVal) : option ((string * JsVal) * list nat) :=
  match ser seen (snd kv) with
  | None => None
  | Some (v', seen') => Some ((fst kv, v'), seen')
  end.

(** A [Map] entry becomes the pair [[k, serializer(v)]]: the key is kept
    as it is. *)
Definition on_entry (ser : list nat → JsVal → option (JsVal * list nat))
    (seen : list nat) (kv : JsVal * JsVal) : option (JsVal * list nat) :=
  match ser seen (snd kv) with
  | None => None
  | Some (v', seen') => Some (VArr [fst kv; v'], seen')
  end.

Definition tagged (type : string) (value : JsVal) : JsVal :=
  VObj [("__type", VStr type); ("value", value)].

Fixpoint serializer (fuel : nat) (h : Heap) (seen : list nat) (val : JsVal)
  : option (JsVal * list nat) :=
  match fuel with
  | O => None
  | S fuel' =>
      let ser := serializer fuel' h in
      let fields_of (seen : list nat) (fields : list (string * JsVal)) :=
        match thread (on_field ser) seen fields with
        | None => None
        | Some (out, seen') => Some (VObj out, seen')
        end in
      let elems_of (seen : list nat) (elems : list JsVal) :=
        match thread ser seen elems with
        | None => None
        | Some (out, seen') => Some (VArr out, seen')
        end in
      match val with
      | VRef a =>
          match h !! a with
          | Some (OError name message stack) =>
              Some (VObj [("name", VStr name); ("message", VStr message); ("stack", stack)], seen)
          | Some (ODate iso _) => Some (tagged "Date" (VStr iso), seen)
          | Some (ORegExp text) => Some (tagged "RegExp" (VStr text), seen)
          | Some (OMap entries) =>
              match thread (on_entry ser) seen entries with
              | None => None
              | Some (out, seen') => Some (tagged "Map" (VArr out), seen')
              end
          | Some (OSet values) =>
              match thread ser seen values with
              | None => None
              | Some (out, seen') => Some (tagged "Set" (VArr out), seen')
              end
          | Some (OPlain fields) =>
              if bool_decide (a ∈ seen) then Some (circular_marker, seen)
              else fields_of (a :: seen) fields
          | Some (OArray elems) =>
              if bool_decide (a ∈ seen) then Some (circular_marker, seen)
              else elems_of (a :: seen) elems
          | None =>
              (* a dangling address: no well-formed heap has one *)
              if bool_decide (a ∈ seen) then Some (circular_marker, seen)
              else Some (VObj [], a :: seen)
          end
      | VObj fields => fields_of seen fields
      | VArr elems => elems_of seen elems
      | _ => Some (val, seen)
      end
  end.

(** The JavaScript runtime the logger runs in: the heap of caller data, the
    depth of the call stack available to a recursive serializer, the clock
    (a [Date] is identified with its ISO-8601 text) and the text of
    [new Error().stack] as seen from [determineSource]. *)
Record Runtime := mkRuntime {
  heap : Heap;
  stackLimit : nat;
  now : string;
  errorStack : option string
}.

(** [try { return serializer(value) } catch (err) { return String(value) }] *)
Definition safeSerialize (rt : Runtime) (value : JsVal) : JsVal :=
  match serializer (stackLimit rt) (heap rt) [] value with
  | Some (out, _) => out
  | None => VStr (js_String (S (length (heap rt))) (heap rt) [] value)
  end.

(** ** interfaces: ILogEntry and the inputs of a log call *)

Record ILogEntry := mkEntry {
  timestamp : string;
  level : LogLevel;
  message : string;
  data : JsVal;              (* [VUndefined] when absent *)
  source : option string
}.

(** A DOM [Event]: [target] is the name of the target's constructor, [None]
    when the target is null. *)
Record Event := mkEvent {
  ev_type : string;
  ev_target : option string;
  ev_timeStamp : Z;
  ev_request : JsVal
}.

Record ErrorEvent := mkErrorEvent {
  ee_type : string;
  ee_message : string;
  ee_filename : string;
  ee_lineno : Z;
  ee_colno : Z;
  ee_error : JsVal
}.

(** [string | Event] *)
Inductive RawInput :=
| MText (s : string)
| MErrorEvent (e : ErrorEvent)
| MEvent (e : Event).


(** ** core/InMemoryCoreLogger.ts *)

Module InMemoryCoreLogger.

Record t := mk { logs : list ILogEntry; maxLogs : Z }.

(** [constructor(maxLogs = 1000)] *)
Definition new (maxLogs : option Z) : t := mk [] (default 1000 maxLogs).

Definition setMaxLogs (max : Z) (this : t) : t := mk (logs this) max.

(** The record as stored: [{ ...entry, data: serializedData }]. *)
Definition stored (rt : Runtime) (entry : ILogEntry) : ILogEntry :=
  let serializedData :=
    if truthy (data entry) then safeSerialize rt (data entry) else VUndefined in
  mkEntry (timestamp entry) (level entry) (message entry) serializedData (source entry).

Definition addEntry (rt : Runtime) (entry : ILogEntry) (this : t) : t :=
  let pushed := logs this ++ [stored rt entry] in
  if Z.of_nat (length pushed) >? maxLogs this
  then mk (js_slice (- maxLogs this) pushed) (maxLogs this)
  else mk pushed (maxLogs this).

Definition getLogs (lvl : option LogLevel) (this : t) : list ILogEntry :=
  match lvl with
  | Some l => filter (λ e, level e = l) (logs this)
  | None => logs this
  end.

Definition clearLogs (this : t) : t := mk [] (maxLogs this).

Definition extractMessage (messageOrEvent : RawInput) : string :=
  match messageOrEvent with
  | MText s => s
  | MErrorEvent e =>
      ee_message e +:+ " (" +:+ ee_filename e +:+ ":" +:+ pretty (ee_lineno e) +:+ ")"
  | MEvent e =>
      ev_type e +:+ " event on " +:+
      match ev_target e with
      | Some name => if String.eqb name "" then "unknown target" else name
      | None => "unknown target"
      end
  end.

(** The fields extracted from the input alone (the first half of
    [extractEventData], before the caller's data is looked at). *)
Definition eventFields (h : Heap) (messageOrEvent : RawInput) : list (string * JsVal) :=
  match messageOrEvent with
  | MErrorEvent e =>
      let stack :=
        match ee_error e with
        | VUndefined | VNull => VUndefined
        | err => get_prop h err "stack"
        end in
      [("filename", VStr (ee_filename e));
       ("lineno", VNum (ee_lineno e));
       ("colno", VNum (ee_colno e));
       ("error", if truthy stack then stack else ee_error e)]
  | MEvent e =>
      let base :=
        [("type", VStr (ev_type e));
         ("target", match ev_target e with Some n => VStr n | None => VUndefined end);
         ("timeStamp", VNum (ev_timeStamp e))] in
      let possibleReq := ev_request e in
      if truthy possibleReq &&
         (negb (is_undefined (get_prop h possibleReq "url")) ||
          negb (is_undefined (get_prop h possibleReq "method")))
      then set_field "method" (get_prop h possibleReq "method")
             (set_field "url" (get_prop h possibleReq "url") base)
      else base
  | MText _ => []
  end.

Definition extractEventData (h : Heap) (messageOrEvent : RawInput)
    (additionalData : JsVal) : JsVal :=
  let eventData := eventFields h messageOrEvent in
  let eventData :=
    if negb (is_undefined additionalData) then
      if is_object additionalData
      then spread (own_enumerable h additionalData) eventData
      else set_field "additionalData" additionalData eventData
    else eventData in
  if (0 <? length eventData)%nat then VObj eventData else VUndefined.

(** The entry built by [log] before it is handed to [addEntry]. *)
Definition entryOf (rt : Runtime) (lvl : LogLevel) (messageOrEvent : RawInput)
    (data : JsVal) (source : option string) : ILogEntry :=
  mkEntry (now rt) lvl (extractMessage messageOrEvent)
    (extractEventData (heap rt) messageOrEvent data) source.

(** [addEntry] cannot raise in this model, so the [catch] branch of [log]
    (a warning on the console) is never taken. *)
Definition log (rt : Runtime) (lvl : LogLevel) (messageOrEvent : RawInput)
    (data : JsVal) (source : option string) (this : t) : t :=
  addEntry rt (entryOf rt lvl messageOrEvent data source) this.

End InMemoryCoreLogger.

(** ** Exceptions and JSON encoding *)

Inductive Exn :=
| JsError (name message : string)
| JsThrown (v : JsVal).

(** What [JSON.stringify] makes of a value: it raises, leaves the value
    out ([undefined] and functions), or yields JSON, given here as the value
    [JSON.parse] reads back. *)
Inductive Jsonified :=
| JThrow (e : Exn)
| JOmit
| JValue (v : JsVal).

Fixpoint json_fields (f : JsVal → Jsonified) (fields : list (string * JsVal))
  : Exn + list (string * JsVal) :=
  match fields with
  | [] => inr []
  | (k, v) :: rest =>
      match f v with
      | JThrow e => inl e
      | JOmit => json_fields f rest
      | JValue v' =>
          match json_fields f rest with
          | inl e => inl e
          | inr out => inr ((k, v') :: out)
          end
      end
  end.

Fixpoint json_elems (f : JsVal → Jsonified) (elems : list JsVal) : Exn + list JsVal :=
  match elems with
  | [] => inr []
  | v :: rest =>
      match f v with
      | JThrow e => inl e
      | r =>
          match json_elems f rest with
          | inl e => inl e
          | inr out => inr (match r with JValue v' => v' | _ => VNull end :: out)
          end
      end
  end.

Definition circular_json : Exn := JsError "TypeError" "Converting circular structure to JSON".
Definition stack_overflow : Exn := JsError "RangeError" "Maximum call stack size exceeded".

(** [path] is the list of objects being encoded: [JSON.stringify] raises
    when one of them is reached again. *)
Fixpoint jsonify (fuel : nat) (h : Heap) (path : list nat) (v : JsVal) : Jsonified :=
  match fuel with
  | O => JThrow stack_overflow
  | S fuel' =>
      let object (path : list nat) (fields : list (string * JsVal)) :=
        match json_fields (jsonify fuel' h path) fields with
        | inl e => JThrow e
        | inr out => JValue (VObj out)
        end in
      let array (path : list nat) (elems : list JsVal) :=
        match json_elems (jsonify fuel' h path) elems with
        | inl e => JThrow e
        | inr out => JValue (VArr out)
        end in
      match v with
      | VUndefined | VFun _ => JOmit
      | VNull | VBool _ | VNum _ | VStr _ => JValue v
      | VObj fields => object path fields
      | VArr elems => array path elems
      | VRef a =>
          match h !! a with
          | Some (OPlain fields) =>
              if bool_decide (a ∈ path) then JThrow circular_json
              else object (a :: path) fields
          | Some (OArray elems) =>
              if bool_decide (a ∈ path) then JThrow circular_json
              else array (a :: path) elems
          | Some (ODate iso _) => JValue (VStr iso)
          | _ => JValue (VObj [])
          end
      end
  end.

(** ** JSON text

    [JSON.stringify(value)] without indentation, for a JSON value. Text is a
    sequence of bytes: a character outside ASCII is its UTF-8 bytes, which
    [QuoteJSONString] copies (well-formed text has no lone surrogate). An
    integer is printed in decimal, as the engine prints a number of magnitude
    below 10^21. *)

Definition double_quote : ascii := ascii_of_nat 34.

Definition backslash : ascii := ascii_of_nat 92.

Definition hex_digit (n : nat) : ascii :=
  match n with
  | 0 => "0" | 1 => "1" | 2 => "2" | 3 => "3" | 4 => "4" | 5 => "5" | 6 => "6" | 7 => "7"
  | 8 => "8" | 9 => "9" | 10 => "a" | 11 => "b" | 12 => "c" | 13 => "d" | 14 => "e"
  | _ => "f"
  end%nat%char.

(** What [QuoteJSONString] writes for one character: the two-character
    escapes, [\u00XX] for the other control characters, the character itself
    otherwise. *)
Definition escaped (c : ascii) : string :=
  let n := nat_of_ascii c in
  if (n =? 34)%nat then String backslash (String double_quote "")
  else if (n =? 92)%nat then String backslash (String backslash "")
  else if (n =? 8)%nat then String backslash "b"
  else if (n =? 12)%nat then String backslash "f"
  else if (n =? 10)%nat then String backslash "n"
  else if (n =? 13)%nat then String backslash "r"
  else if (n =? 9)%nat then String backslash "t"
  else if (n <? 32)%nat then
    String backslash ("u00" +:+ String (hex_digit (n / 16)) (String (hex_digit (n mod 16)) ""))
  else String c "".

Fixpoint escape_all (s : string) : string :=
  match s with
  | EmptyString => ""
  | String c rest => escaped c +:+ escape_all rest
  end.

Definition QuoteJSONString (s : string) : string :=
  String double_quote (escape_all s +:+ String double_quote "").

(** [JSON.stringify(value)] without indentation, for a JSON value as
    [jsonify] yields it. *)
Fixpoint JSON_text (v : JsVal) : string :=
  match v with
  | VNull => "null"
  | VBool b => if b then "true" else "false"
  | VNum n => pretty n
  | VStr s => QuoteJSONString s
  | VArr elems =>
      "[" +:+
      (fix members (l : list JsVal) : string :=
         match l with
         | [] => ""
         | x :: rest =>
             JSON_text x +:+ match rest with [] => "" | _ => "," +:+ members rest end
         end) elems +:+ "]"
  | VObj fields =>
      "{" +:+
      (fix members (l : list (string * JsVal)) : string :=
         match l with
         | [] => ""
         | (k, x) :: rest =>
             QuoteJSONString k +:+ ":" +:+ JSON_text x +:+
             match rest with [] => "" | _ => "," +:+ members rest end
         end) fields +:+ "}"
  | VUndefined | VFun _ | VRef _ => "null"   (* not JSON: never reached *)
  end.

(** ** The world: host facilities and logger objects *)

Inductive ConsoleMethod := c_error | c_warn | c_info | c_log | c_debug | c_trace.

Inductive ConsoleArg :=
| AText (s : string)
| AExn (e : Exn).

(** The console facility: which optional methods exist, and what has been
    printed so far (oldest first). *)
Record Console := mkConsole {
  hasInfo : bool;
  hasDebug : bool;
  hasTrace : bool;
  output : list (ConsoleMethod * list ConsoleArg)
}.

(** A [localStorage] item: a JSON array of persisted records, or any other
    text. *)
Inductive StorageItem :=
| SLogs (entries : list ILogEntry)
| SText (raw : string).

Record World := mkWorld {
  runtime : Runtime;
  console : Console;
  localStorage : gmap string StorageItem;
  quotaExceeded : bool;                        (* [setItem] raises *)
  memory : gmap nat InMemoryCoreLogger.t;      (* InMemoryCoreLogger objects *)
  nextId : nat                                 (* identity of the next object *)
}.

(** ** Effects: state, exceptions, and a record of the calls made *)

Inductive Outcome (A : Type) :=
| Returned (a : A)
| Thrown (e : Exn).
Arguments Returned {A} a.
Arguments Thrown {A} e.

(** What an operation did, for specification only: the sinks whose [log]
    was invoked, with the arguments, and the derivations of a source. *)
Inductive Step :=
| DeterminedSource (s : string)
| Accepted (sink : nat) (lvl : LogLevel) (messageOrEvent : RawInput)
    (data : JsVal) (source : option string).

Record Result (A : Type) := mkResult {
  outcome : Outcome A;
  world : World;
  steps : list Step
}.
Arguments mkResult {A} outcome world steps.
Arguments outcome {A} r.
Arguments world {A} r.
Arguments steps {A} r.

Definition Eff (A : Type) : Type := World → Result A.

#[global] Instance Eff_ret : MRet Eff := λ A a w, mkResult (Returned a) w [].

#[global] Instance Eff_bind : MBind Eff := λ A B f m w,
  let r := m w in
  match outcome r with
  | Returned a =>
      let r' := f a (world r) in
      mkResult (outcome r') (world r') (steps r ++ steps r')
  | Thrown e => mkResult (Thrown e) (world r) (steps r)
  end.

Definition throw {A : Type} (e : Exn) : Eff A := λ w, mkResult (Thrown e) w [].

(** [try { body } catch (err) { handler(err) }] *)
Definition try_catch {A : Type} (body : Eff A) (handler : Exn → Eff A) : Eff A := λ w,
  let r := body w in
  match outcome r with
  | Returned a => r
  | Thrown e =>
      let r' := handler e (world r) in
      mkResult (outcome r') (world r') (steps r ++ steps r')
  end.

Definition read {A : Type} (f : World → A) : Eff A := λ w, mkResult (Returned (f w)) w [].
Definition modify (f : World → World) : Eff unit := λ w, mkResult (Returned tt) (f w) [].
Definition record (s : Step) : Eff unit := λ w, mkResult (Returned tt) w [s].

(** [for (const x of xs) body(x)]: an exception raised by the body ends the
    loop. *)
Fixpoint for_of {A : Type} (xs : list A) (body : A → Eff unit) : Eff unit :=
  match xs with
  | [] => mret tt
  | x :: rest => body x ;; for_of rest body
  end.

(** *** Host calls *)

Definition set_console (c : Console) (w : World) : World :=
  mkWorld (runtime w) c (localStorage w) (quotaExceeded w) (memory w) (nextId w).
Definition set_localStorage (s : gmap string StorageItem) (w : World) : World :=
  mkWorld (runtime w) (console w) s (quotaExceeded w) (memory w) (nextId w).
Definition set_memory (m : gmap nat InMemoryCoreLogger.t) (w : World) : World :=
  mkWorld (runtime w) (console w) (localStorage w) (quotaExceeded w) m (nextId w).
Definition set_nextId (n : nat) (w : World) : World :=
  mkWorld (runtime w) (console w) (localStorage w) (quotaExceeded w) (memory w) n.

Definition print (m : ConsoleMethod) (args : list ConsoleArg) (w : World) : World :=
  let c := console w in
  set_console (mkConsole (hasInfo c) (hasDebug c) (hasTrace c) (output c ++ [(m, args)])) w.

(** [console.<m>(...args)] *)
Definition console_call (m : ConsoleMethod) (args : list ConsoleArg) : Eff unit :=
  modify (print m args).

(** [JSON.stringify(value)], for its exceptions. *)
Definition JSON_stringify (value : JsVal) : Eff unit := λ w,
  match jsonify (stackLimit (runtime w)) (heap (runtime w)) [] value with
  | JThrow e => mkResult (Thrown e) w []
  | _ => mkResult (Returned tt) w []
  end.

Definition persisted (rt : Runtime) (e : ILogEntry) : Exn + ILogEntry :=
  match jsonify (stackLimit rt) (heap rt) [] (data e) with
  | JThrow x => inl x
  | JOmit => inr (mkEntry (timestamp e) (level e) (message e) VUndefined (source e))
  | JValue v => inr (mkEntry (timestamp e) (level e) (message e) v (source e))
  end.

Fixpoint persisted_all (rt : Runtime) (es : list ILogEntry) : Exn + list ILogEntry :=
  match es with
  | [] => inr []
  | e :: rest =>
      match persisted rt e with
      | inl x => inl x
      | inr e' =>
          match persisted_all rt rest with
          | inl x => inl x
          | inr out => inr (e' :: out)
          end
      end
  end.

Definition quota_exceeded : Exn := JsError "QuotaExceededError" "Storage quota exceeded".

(** [localStorage.getItem(key)] *)
Definition getItem (key : string) : Eff (option StorageItem) :=
  read (λ w, localStorage w !! key).

(** [localStorage.setItem(key, JSON.stringify(entries))] *)
Definition setItem_logs (key : string) (entries : list ILogEntry) : Eff unit := λ w,
  match persisted_all (runtime w) entries with
  | inl e => mkResult (Thrown e) w []
  | inr out =>
      if quotaExceeded w then mkResult (Thrown quota_exceeded) w []
      else mkResult (Returned tt) (set_localStorage (<[key := SLogs out]> (localStorage w)) w) []
  end.

(** [localStorage.removeItem(key)] *)
Definition removeItem (key : string) : Eff unit :=
  modify (λ w, set_localStorage (delete key (localStorage w)) w).

(** [raw ? JSON.parse(raw) : []], read as an array of records. *)
Definition parse_logs (raw : option StorageItem) : Eff (list ILogEntry) :=
  match raw with
  | None => mret []
  | Some (SLogs entries) => mret entries
  | Some (SText s) =>
      if String.eqb s "" then mret []
      else throw (JsError "SyntaxError" "Unexpected token in JSON")
  end.

(** ** The sinks *)

(** [typeof messageOrEvent === 'string' ? messageOrEvent : `${type} event`],
    the message as the console and the storage sink render it. *)
Definition plain_message (messageOrEvent : RawInput) : string :=
  match messageOrEvent with
  | MText s => s
  | MErrorEvent e => ee_type e +:+ " event"
  | MEvent e => ev_type e +:+ " event"
  end.

(** A [source] that counts as given: present and not the empty string. *)
Definition given (source : option string) : option string :=
  match source with
  | Some s => if String.eqb s "" then None else Some s
  | None => None
  end.

(** *** core/ConsoleCoreLogger *)

Module ConsoleCoreLogger.

Definition combined (timestamp : string) (lvl : LogLevel) (messageOrEvent : RawInput) : string :=
  let prefix := "[" +:+ timestamp +:+ "] [" +:+ level_upper lvl +:+ "]" in
  prefix +:+ " " +:+ plain_message messageOrEvent.

Definition log (lvl : LogLevel) (messageOrEvent : RawInput) (data : JsVal)
    (source : option string) : Eff unit :=
  rt ← read runtime;
  c ← read console;
  (if truthy data then JSON_stringify data else mret tt) ;;
  let line := AText (combined (now rt) lvl messageOrEvent) in
  match lvl with
  | ERROR => console_call c_error [line; AText ""]
  | WARN => console_call c_warn [line; AText ""]
  | SUCCESS =>
      console_call c_log
        [AText ("%c" +:+ combined (now rt) lvl messageOrEvent);
         AText "color: green; font-weight: bold;"; AText ""]
  | INFO =>
      (if hasInfo c then console_call c_info [line; AText ""] else mret tt) ;;
      console_call c_log [line; AText ""]
  | DEBUG =>
      if hasDebug c then console_call c_debug [line; AText ""]
      else console_call c_log [line; AText ""]
  | TRACE =>
      if hasTrace c then console_call c_trace [line; AText ""]
      else console_call c_log [line; AText ""]
  | FATAL => console_call c_log [line; AText ""]
  end ;;
  match given source with
  | Some s => console_call c_log [AText ("  Source: " +:+ s)]
  | None => mret tt
  end.

End ConsoleCoreLogger.

(** *** core/LocalStorageCoreLogger *)

Module LocalStorageCoreLogger.

(** The object pushed on the array read from storage. *)
Definition pushed (rt : Runtime) (lvl : LogLevel) (messageOrEvent : RawInput)
    (data : JsVal) (source : option string) : ILogEntry :=
  mkEntry (now rt) lvl (plain_message messageOrEvent)
    (if truthy data then safeSerialize rt data else VUndefined) source.

Definition log (storageKey : string) (maxStored : Z) (lvl : LogLevel)
    (messageOrEvent : RawInput) (data : JsVal) (source : option string) : Eff unit :=
  try_catch
    (rt ← read runtime;
     raw ← getItem storageKey;
     arr ← parse_logs raw;
     let trimmed := js_slice (- maxStored) (arr ++ [pushed rt lvl messageOrEvent data source]) in
     setItem_logs storageKey trimmed)
    (λ err, console_call c_warn [AText "LocalStorageCoreLogger failed to write log:"; AExn err]).

End LocalStorageCoreLogger.

(** *** ICoreLogger: the registered sinks

    Every sink object has an identity [oid]. A caller-supplied sink is any
    behaviour on the world that returns or raises; in this model such a sink
    implements [ICoreLogger] only, so the in-memory store is always an
    [InMemoryCoreLogger]. *)
Inductive CoreLogger :=
| ConsoleCore (oid : nat)
| LocalStorageCore (oid : nat) (storageKey : string) (maxStored : Z)
| InMemoryCore (oid : nat)
| CustomCore (oid : nat)
    (log : LogLevel → RawInput → JsVal → option string → World → Outcome unit * World).

Definition oid (core : CoreLogger) : nat :=
  match core with
  | ConsoleCore i | LocalStorageCore i _ _ | InMemoryCore i | CustomCore i _ => i
  end.

(** [c instanceof ConsoleCoreLogger], [c instanceof LocalStorageCoreLogger] *)
Definition is_console (c : CoreLogger) : bool :=
  match c with ConsoleCore _ => true | _ => false end.
Definition is_storage (c : CoreLogger) : bool :=
  match c with LocalStorageCore _ _ _ => true | _ => false end.

(** Apply a method of the InMemoryCoreLogger object [r]. *)
Definition on_memory (r : nat) (f : Runtime → InMemoryCoreLogger.t → InMemoryCoreLogger.t)
  : Eff unit :=
  modify (λ w,
    match memory w !! r with
    | Some b => set_memory (<[r := f (runtime w) b]> (memory w)) w
    | None => w
    end).

(** [core.log(level, messageOrEvent, data, source)] *)
Definition accept (core : CoreLogger) (lvl : LogLevel) (messageOrEvent : RawInput)
    (data : JsVal) (source : option string) : Eff unit :=
  record (Accepted (oid core) lvl messageOrEvent data source) ;;
  match core with
  | ConsoleCore _ => ConsoleCoreLogger.log lvl messageOrEvent data source
  | LocalStorageCore _ storageKey maxStored =>
      LocalStorageCoreLogger.log storageKey maxStored lvl messageOrEvent data source
  | InMemoryCore r =>
      on_memory r (λ rt, InMemoryCoreLogger.log rt lvl messageOrEvent data source)
  | CustomCore _ log =>
      λ w, let r := log lvl messageOrEvent data source w in mkResult (r.1) (r.2) []
  end.

(** ** interfaces: options and configuration *)

Module ILoggingConfigurationOptions.
Record t := mk {
  applicationName : option string;
  enableConsoleCore : option bool;
  enableLocalStorageCore : option bool;
  customCoreLoggers : option (list CoreLogger);
  maxLogs : option Z
}.

(** [options?.field], for an optional [options] argument. *)
Definition field {A : Type} (f : t → option A) (options : option t) : option A :=
  match options with
  | Some o => f o
  | None => None
  end.
End ILoggingConfigurationOptions.

Module ILoggingConfiguration.
Record t := mk {
  applicationName : string;
  enableConsoleCore : bool;
  enableLocalStorageCore : bool;
  maxLogs : Z;
  totalLogs : nat
}.
End ILoggingConfiguration.

(** ** LoggingService *)

Module LoggingService.

Module Opt := ILoggingConfigurationOptions.

(** The fields of an instance. *)
Record t := mk {
  maxLogs : Z;
  applicationName : string;
  inMemoryLogger : option nat
}.

(** The static fields of the class. *)
Record Statics := mkStatics {
  instance : option t;
  activeCoreLoggers : list CoreLogger
}.

(** [new LoggingService()] *)
Definition new : t := mk 1000 "application" None.

(** *** determineSource *)

Definition is_word (c : ascii) : bool :=
  let n := nat_of_ascii c in
  ((48 <=? n) && (n <=? 57) || (65 <=? n) && (n <=? 90) ||
   (97 <=? n) && (n <=? 122) || (n =? 95))%nat.

(** The longest prefix of word characters, and what follows it. *)
Fixpoint take_word (s : string) : string * string :=
  match s with
  | String c rest =>
      if is_word c then let r := take_word rest in (String c r.1, r.2) else ("", s)
  | EmptyString => ("", "")
  end.

(** [(?:(\w+)\.)?(\w+)] matched at the start of [s]. *)
Definition match_frame (s : string) : option (option string * string) :=
  let r1 := take_word s in
  if String.eqb r1.1 "" then None
  else
    match r1.2 with
    | String "."%char after =>
        let r2 := take_word after in
        if String.eqb r2.1 "" then Some (None, r1.1) else Some (Some r1.1, r2.1)
    | _ => Some (None, r1.1)
    end.

(** [caller.match(/at (?:(\w+)\.)?(\w+)/)]: the leftmost match. *)
Fixpoint match_caller (s : string) : option (option string * string) :=
  match s with
  | String "a"%char (String "t"%char (String " "%char after) as rest1) =>
      match match_frame after with
      | Some m => Some m
      | None => match_caller rest1
      end
  | String _ rest => match_caller rest
  | EmptyString => None
  end.

(** [s.split('\n')] *)
Fixpoint split_lines (s : string) : list string :=
  match s with
  | EmptyString => [""]
  | String c rest =>
      if Ascii.eqb c "010"%char then "" :: split_lines rest
      else
        match split_lines rest with
        | l :: ls => String c l :: ls
        | [] => [String c ""]
        end
  end.

Fixpoint trim_start (s : string) : string :=
  match s with
  | String c rest => if Ascii.is_space c then trim_start rest else s
  | EmptyString => ""
  end.

Definition trim (s : string) : string :=
  String.rev (trim_start (String.rev (trim_start s))).

Definition source_of_stack (errorStack : option string) : string :=
  match split_lines <$> errorStack with
  | Some stack =>
      if (4 <? length stack)%nat then
        match match_caller (trim (default "" (stack !! 4%nat))) with
        | Some (Some component, method) => component +:+ "." +:+ method
        | Some (None, method) => method
        | None => "unknown"
        end
      else "unknown"
  | None => "unknown"
  end.

Definition determineSource : Eff string :=
  rt ← read runtime;
  let s := source_of_stack (errorStack rt) in
  record (DeterminedSource s) ;;
  mret s.

(** *** Registration *)

(** [activeCoreLoggers.includes(core)] compares identities. *)
Definition includes (cores : list CoreLogger) (core : CoreLogger) : bool :=
  existsb (λ c, Nat.eqb (oid c) (oid core)) cores.

Definition setCoreLogger (core : CoreLogger) (st : Statics) : Statics :=
  if includes (activeCoreLoggers st) core then st
  else mkStatics (instance st) (activeCoreLoggers st ++ [core]).

Definition getCoreLoggers (st : Statics) : list CoreLogger := activeCoreLoggers st.

(** [c && typeof c.getLogs === 'function' && typeof c.addEntry === 'function'] *)
Definition is_advanced (c : CoreLogger) : bool :=
  match c with
  | InMemoryCore _ => true
  | _ => false
  end.

(** A fresh object identity. *)
Definition fresh : Eff nat := λ w,
  mkResult (Returned (nextId w)) (set_nextId (S (nextId w)) w) [].

(** [new InMemoryCoreLogger(max)] *)
Definition new_InMemoryCoreLogger (max : Z) : Eff nat :=
  r ← fresh;
  modify (λ w, set_memory (<[r := InMemoryCoreLogger.new (Some max)]> (memory w)) w) ;;
  mret r.

Definition storageKey (this : t) : string := applicationName this +:+ "-logs".

(** The [try] block that loads the persisted records into the in-memory
    logger, oldest first. *)
Definition hydrate (this : t) (inMemory : nat) : Eff unit :=
  try_catch
    (stored ← getItem (storageKey this);
     parsedLogs ← parse_logs stored;
     for_of parsedLogs (λ log,
       on_memory inMemory (λ rt, InMemoryCoreLogger.addEntry rt log)))
    (λ err, console_call c_warn
       [AText "Failed to hydrate in-memory logs from storage"; AExn err]).

(** The [if / else if / else] block that settles which in-memory logger is
    the store: the one the instance already holds (only its capacity is set,
    when [maxLogs] is given), else the first advanced logger among the
    custom ones, else a new one. *)
Definition selectInMemory (options : option Opt.t) (this : t) : Eff nat :=
  let customAdvanced :=
    match Opt.field Opt.customCoreLoggers options with
    | Some customs => List.find is_advanced customs
    | None => None
    end in
  match inMemoryLogger this with
  | Some inMemory =>
      match Opt.field Opt.maxLogs options with
      | Some max => on_memory inMemory (λ _, InMemoryCoreLogger.setMaxLogs max)
      | None => mret tt
      end ;;
      mret inMemory
  | None =>
      match customAdvanced with
      | Some c => mret (oid c)
      | None =>
          new_InMemoryCoreLogger (default (maxLogs this) (Opt.field Opt.maxLogs options))
      end
  end.

(** The body of the loop over the custom loggers: the in-memory store is
    skipped. *)
Definition registerCustom (inMemory : nat) (st : Statics) (custom : CoreLogger) : Statics :=
  if Nat.eqb (oid custom) inMemory then st else setCoreLogger custom st.

(** The three registration blocks: console, storage, custom loggers. *)
Definition registerCores (options : option Opt.t) (this : t) (inMemory : nat)
    (st : Statics) : Eff Statics :=
  st ←
    (if default true (Opt.field Opt.enableConsoleCore options)
     then i ← fresh; mret (setCoreLogger (ConsoleCore i) st)
     else mret st);
  st ←
    (if default true (Opt.field Opt.enableLocalStorageCore options)
     then i ← fresh; mret (setCoreLogger (LocalStorageCore i (storageKey this) 500) st)
     else mret st);
  mret
    (fold_left (registerCustom inMemory)
       (default [] (Opt.field Opt.customCoreLoggers options)) st).

(** The instance after the first two statements of [initialize]. *)
Definition withOptions (options : option Opt.t) (this : t) : t :=
  let this :=
    match given (Opt.field Opt.applicationName options) with
    | Some name => mk (maxLogs this) name (inMemoryLogger this)
    | None => this
    end in
  match Opt.field Opt.maxLogs options with
  | Some max => mk max (applicationName this) (inMemoryLogger this)
  | None => this
  end.

(** [initialize] from its second statement on: [this] is the instance that
    [getInstance()] returned. *)
Definition configure (options : option Opt.t) (st : Statics) (this : t) : Eff Statics :=
  let this := withOptions options this in
  let st := mkStatics (instance st) [] in
  inMemory ← selectInMemory options this;
  let this := mk (maxLogs this) (applicationName this) (Some inMemory) in
  let st := mkStatics (Some this) (activeCoreLoggers st) in
  hydrate this inMemory ;;
  registerCores options this inMemory st.

(** [getInstance]: the nested [initialize()] finds the instance already
    set, so its own [getInstance()] returns at once. *)
Definition getInstance (st : Statics) : Eff (t * Statics) :=
  match instance st with
  | Some this => mret (this, st)
  | None =>
      st' ← configure None (mkStatics (Some new) (activeCoreLoggers st)) new;
      mret (default new (instance st'), st')
  end.

Definition initialize (options : option Opt.t) (st : Statics) : Eff Statics :=
  r ← getInstance st;
  configure options r.2 r.1.

(** *** Logging *)

Definition broadcast (st : Statics) (this : t) (lvl : LogLevel)
    (messageOrEvent : RawInput) (data : JsVal) (source : option string) : Eff unit :=
  resolvedSource ←
    match given source with
    | Some s => mret s
    | None => determineSource
    end;
  match inMemoryLogger this with
  | Some inMemory =>
      try_catch
        (accept (InMemoryCore inMemory) lvl messageOrEvent data (Some resolvedSource))
        (λ err, console_call c_warn [AText "In-memory logger threw an error:"; AExn err])
  | None => mret tt
  end ;;
  for_of (activeCoreLoggers st) (λ core,
    try_catch
      (accept core lvl messageOrEvent data source)
      (λ err, console_call c_warn [AText "Core logger threw an error:"; AExn err])).

Definition error st this := broadcast st this ERROR.
Definition info st this := broadcast st this INFO.


(** *** Reading and clearing *)

Definition getLogs (this : t) (lvl : option LogLevel) (w : World) : list ILogEntry :=
  match inMemoryLogger this with
  | Some inMemory =>
      match memory w !! inMemory with
      | Some b => InMemoryCoreLogger.getLogs lvl b
      | None => []
      end
  | None => []
  end.

Definition clearLogs (this : t) : Eff unit :=
  match inMemoryLogger this with
  | Some inMemory => on_memory inMemory (λ _, InMemoryCoreLogger.clearLogs)
  | None => mret tt
  end ;;
  removeItem (storageKey this).

Definition getConfiguration (st : Statics) (this : t) (w : World) : ILoggingConfiguration.t :=
  ILoggingConfiguration.mk
    (applicationName this)
    (existsb is_console (activeCoreLoggers st))
    (existsb is_storage (activeCoreLoggers st))
    (maxLogs this)
    (length (getLogs this None w)).

(** *** safeSerialize: [JSON.stringify(value, replacer)] read back by
    [JSON.parse]

    [encode] is one call of the engine's property serialization with the
    replacer of the source applied: [None] is a [RangeError] (the stack is
    used up), [Some (None, _)] is [undefined] (the property is left out of an
    object and becomes [null] in an array), [Some (Some v, _)] is JSON, given
    as the value [JSON.parse] reads back. [toJSON] is called before the
    replacer, so the replacer sees a [Date] as its ISO text. The objects the
    replacer builds for errors, patterns, maps and sets are new, and so are
    the arrays [Array.from] returns: they are encoded member by member, each
    member passing through the replacer. [seen] is the replacer's [WeakSet];
    every object being encoded is in it, so the engine's own cycle check
    never fires. *)

Fixpoint encode_fields (enc : list nat → JsVal → option (option JsVal * list nat))
    (seen : list nat) (fields : list (string * JsVal))
  : option (list (string * JsVal) * list nat) :=
  match fields with
  | [] => Some ([], seen)
  | (k, v) :: rest =>
      match enc seen v with
      | None => None
      | Some (r, seen1) =>
          match encode_fields enc seen1 rest with
          | None => None
          | Some (out, seen2) =>
              Some (match r with Some v' => (k, v') :: out | None => out end, seen2)
          end
      end
  end.

Fixpoint encode_elems (enc : list nat → JsVal → option (option JsVal * list nat))
    (seen : list nat) (elems : list JsVal) : option (list JsVal * list nat) :=
  match elems with
  | [] => Some ([], seen)
  | v :: rest =>
      match enc seen v with
      | None => None
      | Some (r, seen1) =>
          match encode_elems enc seen1 rest with
          | None => None
          | Some (out, seen2) => Some (default VNull r :: out, seen2)
          end
      end
  end.

Fixpoint encode (fuel : nat) (h : Heap) (seen : list nat) (val : JsVal)
  : option (option JsVal * list nat) :=
  match fuel with
  | O => None
  | S fuel' =>
      let object (seen : list nat) (fields : list (string * JsVal)) :=
        match encode_fields (encode fuel' h) seen fields with
        | None => None
        | Some (out, seen') => Some (Some (VObj out), seen')
        end in
      let array (seen : list nat) (elems : list JsVal) :=
        match encode_elems (encode fuel' h) seen elems with
        | None => None
        | Some (out, seen') => Some (Some (VArr out), seen')
        end in
      match val with
      | VUndefined | VFun _ => Some (None, seen)
      | VNull | VBool _ | VNum _ | VStr _ => Some (Some val, seen)
      | VObj fields => object seen fields
      | VArr elems => array seen elems
      | VRef a =>
          match h !! a with
          | Some (OError name message stack) =>
              object seen [("name", VStr name); ("message", VStr message); ("stack", stack)]
          | Some (ODate iso _) => Some (Some (VStr iso), seen)
          | Some (ORegExp text) => object seen [("__type", VStr "RegExp"); ("value", VStr text)]
          | Some (OMap entries) =>
              object seen
                [("__type", VStr "Map");
                 ("value", VArr (map (λ kv, VArr [fst kv; snd kv]) entries))]
          | Some (OSet values) =>
              object seen [("__type", VStr "Set"); ("value", VArr values)]
          | Some (OPlain fields) =>
              if bool_decide (a ∈ seen) then Some (Some circular_marker, seen)
              else object (a :: seen) fields
          | Some (OArray elems) =>
              if bool_decide (a ∈ seen) then Some (Some circular_marker, seen)
              else array (a :: seen) elems
          | None =>
              (* a dangling address: no well-formed heap has one *)
              if bool_decide (a ∈ seen) then Some (Some circular_marker, seen)
              else Some (Some (VObj []), a :: seen)
          end
      end
  end.

(** [JSON.parse] of [undefined] raises, like the encoding that uses up the
    stack; the [catch] block answers both. *)
Definition safeSerialize (rt : Runtime) (value : JsVal) : JsVal :=
  match encode (stackLimit rt) (heap rt) [] value with
  | Some (Some json, _) => json
  | _ =>
      let text := VStr (js_String (S (length (heap rt))) (heap rt) [] value) in
      match value with
      | VRef a =>
          match heap rt !! a with
          | Some (OError name message stack) =>
              VObj [("name", VStr name); ("message", VStr message); ("stack", stack)]
          | _ => text
          end
      | _ => text
      end
  end.

(** *** getLogsAsString *)

(** The callback of [map]: the line of a record, or the exception that
    [JSON.stringify] raises. *)
Definition formatted (rt : Runtime) (log : ILogEntry) : Exn + string :=
  let source :=
    match source log with
    | Some s =>
        if String.eqb s "" || String.eqb s "unknown" then "" else " | Source: " +:+ s
    | None => ""
    end in
  let line (data : string) : string :=
    "[" +:+ timestamp log +:+ "] [" +:+ level_upper (level log) +:+ "] " +:+
    message log +:+ data +:+ source in
  if truthy (data log) then
    match jsonify (stackLimit rt) (heap rt) [] (safeSerialize rt (data log)) with
    | JThrow e => inl e
    | JOmit => inr (line " | Data: undefined")
    | JValue json => inr (line (" | Data: " +:+ JSON_text json))
    end
  else inr (line "").

(** [logs.map(callback)]: the first exception ends the call. *)
Fixpoint map_lines (f : ILogEntry → Exn + string) (logs : list ILogEntry)
  : Exn + list string :=
  match logs with
  | [] => inr []
  | log :: rest =>
      match f log with
      | inl e => inl e
      | inr line =>
          match map_lines f rest with
          | inl e => inl e
          | inr lines => inr (line :: lines)
          end
      end
  end.

Definition getLogsAsString (this : t) (lvl : option LogLevel) (w : World)
  : Exn + string :=
  match map_lines (formatted (runtime w)) (getLogs this lvl w) with
  | inl e => inl e
  | inr lines => inr (join_with (String "010" "") lines)
  end.

End LoggingService.

(** * Specification vocabulary *)

Module Opt := ILoggingConfigurationOptions.
Module Cfg := ILoggingConfiguration.

(** ** The bounded buffer *)

(** The [n] most recent elements of a list, oldest first. *)
Definition newest {A : Type} (n : nat) (l : list A) : list A := drop (length l - n) l.

(** A sequence of inserts. *)
Fixpoint insert_all (rt : Runtime) (es : list ILogEntry) (b : InMemoryCoreLogger.t)
  : InMemoryCoreLogger.t :=
  match es with
  | [] => b
  | e :: rest => insert_all rt rest (InMemoryCoreLogger.addEntry rt e b)
  end.

(** Lowering the capacity of [b] to [n] and inserting [e]: nothing is
    trimmed by the change itself, and the insert leaves [n] records of which
    [e] is the last. *)
Definition lazy_shrink (rt : Runtime) (b : InMemoryCoreLogger.t) (n : Z) (e : ILogEntry)
  : Prop :=
  let b' := InMemoryCoreLogger.addEntry rt e (InMemoryCoreLogger.setMaxLogs n b) in
  InMemoryCoreLogger.logs (InMemoryCoreLogger.setMaxLogs n b) = InMemoryCoreLogger.logs b ∧
  Z.of_nat (length (InMemoryCoreLogger.logs b')) = n ∧
  last (InMemoryCoreLogger.logs b') = Some (InMemoryCoreLogger.stored rt e).

(** ** Caller data *)


(** ** Effects *)

(** The operation never raises. *)
Definition returns {A : Type} (m : Eff A) : Prop := ∀ w, ∃ a, outcome (m w) = Returned a.

(** The operation invokes no sink and derives no source. *)
Definition silent {A : Type} (m : Eff A) : Prop := ∀ w, steps (m w) = [].

(** The source [broadcast] resolves. *)
Definition resolved (source : option string) (w : World) : string :=
  match given source with
  | Some s => s
  | None => LoggingService.source_of_stack (errorStack (runtime w))
  end.

(** ** Configuration *)

(** The records persisted under a storage key. *)
Definition persisted_under (key : string) (w : World) : list ILogEntry :=
  match localStorage w !! key with
  | Some (SLogs es) => es
  | _ => []
  end.

(** The buffer with its capacity set to [maxLogs], when that is given. *)
Definition with_capacity (o : option Opt.t) (b : InMemoryCoreLogger.t) : InMemoryCoreLogger.t :=
  match Opt.field Opt.maxLogs o with
  | Some max => InMemoryCoreLogger.setMaxLogs max b
  | None => b
  end.

(** The instance a call of [initialize] starts from. *)
Definition prior (st : LoggingService.Statics) : LoggingService.t :=
  default LoggingService.new (LoggingService.instance st).

(** ** The serializer *)


(** A value that is not an object literal: what a caller's heap holds. *)
Definition flat (v : JsVal) : bool :=
  match v with
  | VObj _ | VArr _ => false
  | _ => true
  end.

Definition plain_object (o : HeapObj) : bool :=
  match o with
  | OPlain fields => forallb flat fields.*2
  | OArray elems => forallb flat elems
  | OMap _ | OSet _ => false
  | _ => true
  end.

(** A heap of plain objects, arrays, errors, dates and patterns. *)
Definition plain_heap (h : Heap) : bool := forallb plain_object h.

(** The number of heap addresses not yet in [seen]. *)
Definition unseen (h : Heap) (seen : list nat) : nat :=
  length (filter (λ a, a ∉ seen) (seq 0 (length h))).

(** ** Data for the examples *)

Definition example_stack : string :=
  "Error
    at LoggingService.determineSource (LoggingService.ts:256:19)
    at LoggingService.broadcast (LoggingService.ts:224:43)
    at LoggingService.info (LoggingService.ts:195:10)
    at UserService.login (app.ts:9:9)
    at main (app.ts:1:1)".

Definition runtime_of (h : Heap) : Runtime :=
  mkRuntime h 1000 "2023-01-01T00:00:00.000Z" (Some example_stack).

Definition world_of (h : Heap) : World :=
  mkWorld (runtime_of h) (mkConsole true true true []) ∅ false ∅ 0.

(** A service that has never been used. *)
Definition unused : LoggingService.Statics := LoggingService.mkStatics None [].

Definition entry_of (msg : string) : ILogEntry := mkEntry "2023-01-01T00:00:00.000Z" INFO msg VUndefined None.


(** [circular = { name: 'test' }; circular.self = circular] *)
Definition cyclic_heap : Heap :=
  [OPlain [("name", VStr "test"); ("self", VRef 0%nat)]].

Definition click : RawInput := MEvent (mkEvent "click" (Some "HTMLButtonElement") 7 VUndefined).

(** [{ enableConsoleCore: false, enableLocalStorageCore: false }] *)
Definition sinks_off : option Opt.t := Some (Opt.mk None (Some false) (Some false) None None).


(** The statics and the world after [initialize(options)]. *)
Definition initialized (options : option Opt.t) (s : LoggingService.Statics * World)
  : LoggingService.Statics * World :=
  let r := LoggingService.initialize options s.1 s.2 in
  (match outcome r with Returned st => st | Thrown _ => s.1 end, world r).

(** The world after a call of [logger.info(message, data)]. *)
Definition after_info (messageOrEvent : RawInput) (data : JsVal)
    (s : LoggingService.Statics * World) : LoggingService.Statics * World :=
  (s.1, world (LoggingService.info s.1 (prior s.1) messageOrEvent data None s.2)).


(** A caller-supplied sink that always raises. *)
Definition failing_sink (i : nat) : CoreLogger :=
  CustomCore i (λ _ _ _ _ w, (Thrown (JsError "Error" "sink failed"), w)).

(** * Vocabulary of the further properties *)

(** ** Buffer and normalizer *)


(** An instance of a built-in class ([Error], [Date], [RegExp], [Map],
    [Set]): it has no own enumerable property. *)
Definition class_instance (h : Heap) (v : JsVal) : bool :=
  match v with
  | VRef a =>
      match h !! a with
      | Some (OError _ _ _) | Some (ODate _ _) | Some (ORegExp _)
      | Some (OMap _) | Some (OSet _) => true
      | _ => false
      end
  | _ => false
  end.

(** ** Sinks *)

(** What [JSON.stringify(data)] does in the console sink, which encodes
    the data only when it is truthy. *)
Definition console_encoding (w : World) (d : JsVal) : Jsonified :=
  if truthy d then jsonify (stackLimit (runtime w)) (heap (runtime w)) [] d else JOmit.

(** The array the storage sink reads: [None] when the stored text is not
    JSON. *)
Definition stored_array (key : string) (w : World) : option (list ILogEntry) :=
  match localStorage w !! key with
  | Some (SLogs es) => Some es
  | Some (SText s) => if String.eqb s "" then Some [] else None
  | None => Some []
  end.

Definition storage_warning (err : Exn) : World → World :=
  print c_warn [AText "LocalStorageCoreLogger failed to write log:"; AExn err].


(** A console or storage sink. *)
Definition is_built_in (c : CoreLogger) : bool := is_console c || is_storage c.

(** ** Registered sinks *)

(** The sinks [initialize] creates itself, the first with identity [n]. *)
Definition built_in_cores (o : option Opt.t) (this : LoggingService.t) (n : nat)
  : list CoreLogger :=
  let console := default true (Opt.field Opt.enableConsoleCore o) in
  (if console then [ConsoleCore n] else []) ++
  (if default true (Opt.field Opt.enableLocalStorageCore o)
   then [LocalStorageCore (if console then S n else n) (LoggingService.storageKey this) 500]
   else []).

(** The custom loggers of a call of [initialize]. *)
Definition customs_of (o : option Opt.t) : list CoreLogger :=
  default [] (Opt.field Opt.customCoreLoggers o).

(** The identities of the registered sinks. *)
Definition registered (st : LoggingService.Statics) : list nat :=
  oid <$> LoggingService.activeCoreLoggers st.

(** ** Serialized values *)


(** The [stack] of every error is text (or absent), as engines set it. *)
Definition text_stacks (h : Heap) : bool :=
  forallb (λ o, match o with OError _ _ stack => negb (is_object stack) | _ => true end) h.


(** [value instanceof Error] *)
Definition is_error (h : Heap) (v : JsVal) : bool :=
  match v with
  | VRef a => match h !! a with Some (OError _ _ _) => true | _ => false end
  | _ => false
  end.



(** ** The text of the records *)




(** ** Further data for the examples *)



(** * Properties *)

(** ** Lists and [slice] *)

Lemma js_slice_zero {A : Type} (l : list A) : js_slice (- 0) l = l.
Proof.
  unfold js_slice. change (- 0 <? 0) with false. cbv beta iota zeta.
  replace (Z.to_nat ((- 0) `min` Z.of_nat (length l))) with 0%nat by lia. done.
Qed.

Lemma js_slice_keep {A : Type} (n : Z) (l : list A) :
  0 < n → js_slice (- n) l = newest (Z.to_nat n) l.
Proof.
  intros Hn. unfold js_slice, newest.
  destruct (Z.ltb_spec (- n) 0); [|lia].
  f_equal. lia.
Qed.

Lemma newest_all {A : Type} (n : nat) (l : list A) : (length l ≤ n)%nat → newest n l = l.
Proof. intros H. unfold newest. replace (length l - n)%nat with 0%nat by lia. done. Qed.

Lemma length_newest {A : Type} (n : nat) (l : list A) :
  length (newest n l) = (length l `min` n)%nat.
Proof. unfold newest. rewrite length_drop. lia. Qed.

Lemma newest_app_newest {A : Type} (n : nat) (l r : list A) :
  newest n (newest n l ++ r) = newest n (l ++ r).
Proof.
  destruct (decide (length l ≤ n)%nat) as [Hle|Hgt].
  - by rewrite (newest_all n l).
  - unfold newest at 1 3. rewrite !length_app, length_newest.
    unfold newest.
    rewrite <- (drop_app_le l r) by lia.
    rewrite drop_drop. f_equal. lia.
Qed.

Lemma last_newest {A : Type} (n : nat) (l : list A) (x : A) :
  (0 < n)%nat → last (newest n (l ++ [x])) = Some x.
Proof.
  intros Hn. unfold newest. rewrite length_app. simpl.
  rewrite drop_app_le by lia. by rewrite last_snoc.
Qed.

(** ** The bounded buffer *)

Lemma maxLogs_addEntry rt e b :
  InMemoryCoreLogger.maxLogs (InMemoryCoreLogger.addEntry rt e b) = InMemoryCoreLogger.maxLogs b.
Proof. unfold InMemoryCoreLogger.addEntry. by case_match. Qed.

Lemma logs_addEntry rt e b :
  0 < InMemoryCoreLogger.maxLogs b →
  InMemoryCoreLogger.logs (InMemoryCoreLogger.addEntry rt e b) =
  newest (Z.to_nat (InMemoryCoreLogger.maxLogs b))
    (InMemoryCoreLogger.logs b ++ [InMemoryCoreLogger.stored rt e]).
Proof.
  intros Hmax. unfold InMemoryCoreLogger.addEntry.
  destruct (Z.gtb_spec
              (Z.of_nat (length (InMemoryCoreLogger.logs b ++ [InMemoryCoreLogger.stored rt e])))
              (InMemoryCoreLogger.maxLogs b)); simpl.
  - by apply js_slice_keep.
  - symmetry. apply newest_all. lia.
Qed.

Lemma maxLogs_insert_all rt es b :
  InMemoryCoreLogger.maxLogs (insert_all rt es b) = InMemoryCoreLogger.maxLogs b.
Proof.
  revert b. induction es as [|e es IH]; intros b; [done|].
  simpl. rewrite IH. apply maxLogs_addEntry.
Qed.

Lemma insert_all_snoc rt es e b :
  insert_all rt (es ++ [e]) b = InMemoryCoreLogger.addEntry rt e (insert_all rt es b).
Proof. revert b. induction es as [|e0 es IH]; intros b; simpl; [done|apply IH]. Qed.

(** With a positive capacity, a non-empty sequence of inserts leaves the
    newest [maxLogs] records, oldest first. *)
Lemma insert_all_keeps_newest rt es b :
  0 < InMemoryCoreLogger.maxLogs b → es ≠ [] →
  InMemoryCoreLogger.logs (insert_all rt es b) =
  newest (Z.to_nat (InMemoryCoreLogger.maxLogs b))
    (InMemoryCoreLogger.logs b ++ map (InMemoryCoreLogger.stored rt) es).
Proof.
  intros Hmax. induction es as [|e es IH] using rev_ind; [done|]. intros _.
  rewrite insert_all_snoc, logs_addEntry by (by rewrite maxLogs_insert_all).
  rewrite maxLogs_insert_all, map_app, app_assoc. simpl.
  destruct es as [|e0 es0].
  - simpl. by rewrite app_nil_r.
  - rewrite IH by done. apply newest_app_newest.
Qed.

(** With a positive capacity the bound holds after every insert. *)
Lemma insert_all_bounded rt es b :
  0 < InMemoryCoreLogger.maxLogs b → es ≠ [] →
  Z.of_nat (length (InMemoryCoreLogger.logs (insert_all rt es b))) ≤ InMemoryCoreLogger.maxLogs b.
Proof.
  intros Hmax Hes. rewrite insert_all_keeps_newest, length_newest by done. lia.
Qed.

(** With capacity zero nothing is ever evicted. *)
Lemma insert_all_capacity_zero rt es b :
  InMemoryCoreLogger.maxLogs b = 0 →
  InMemoryCoreLogger.logs (insert_all rt es b) =
  InMemoryCoreLogger.logs b ++ map (InMemoryCoreLogger.stored rt) es.
Proof.
  intros Hmax. induction es as [|e es IH] using rev_ind.
  - simpl. by rewrite app_nil_r.
  - rewrite insert_all_snoc. unfold InMemoryCoreLogger.addEntry.
    rewrite maxLogs_insert_all, Hmax, IH.
    rewrite map_app, app_assoc. simpl.
    case_match; simpl; [apply js_slice_zero | done].
Qed.

(** The rotation test of the repository: capacity 5, messages m0..m6. *)
Example rotation_m0_m6 :
  map message
    (InMemoryCoreLogger.logs
       (insert_all (runtime_of [])
          (map entry_of ["m0"; "m1"; "m2"; "m3"; "m4"; "m5"; "m6"])
          (InMemoryCoreLogger.new (Some 5)))) =
  ["m2"; "m3"; "m4"; "m5"; "m6"].
Proof. reflexivity. Qed.

(** C2 (the code departs from the claim): a buffer of capacity 0 keeps every
    record it is given. [addEntry] trims with [logs.slice(-maxLogs)], and
    [slice(-0)] is [slice(0)], the whole array; so after any sequence of
    inserts the buffer holds all of them, not the 0 most recent, and
    [length <= maxSize] fails from the first insert on. For every positive
    capacity the claim holds: [insert_all_keeps_newest], [insert_all_bounded]. *)
Theorem capacity_zero_never_evicts rt es :
  InMemoryCoreLogger.logs (insert_all rt es (InMemoryCoreLogger.new (Some 0))) =
  map (InMemoryCoreLogger.stored rt) es.
Proof. by rewrite insert_all_capacity_zero. Qed.

Example capacity_zero_one_insert :
  length
    (InMemoryCoreLogger.logs
       (InMemoryCoreLogger.addEntry (runtime_of []) (entry_of "m0")
          (InMemoryCoreLogger.new (Some 0)))) = 1%nat.
Proof. reflexivity. Qed.

(** C3 (as amended): for every buffer with [L] records and every new
    capacity [n] with [1 <= n < L], [setMaxLogs(n)] leaves the records
    unchanged, and the next insert leaves exactly [n] records, the last of
    which is the record just inserted. *)
Theorem lowering_capacity_is_lazy rt b n e :
  1 ≤ n → n < Z.of_nat (length (InMemoryCoreLogger.logs b)) → lazy_shrink rt b n e.
Proof.
  intros Hn HL. unfold lazy_shrink. cbv zeta. split; [done|].
  rewrite logs_addEntry by (simpl; lia).
  cbn [InMemoryCoreLogger.setMaxLogs InMemoryCoreLogger.maxLogs InMemoryCoreLogger.logs].
  split.
  - rewrite length_newest, length_app. simpl. lia.
  - apply last_newest. lia.
Qed.

Lemma lowering_capacity_is_lazy_witness :
  1 ≤ 2 ∧
  2 < Z.of_nat (length (InMemoryCoreLogger.logs
                          (InMemoryCoreLogger.mk (map entry_of ["m1"; "m2"; "m3"]) 5))) ∧
  lazy_shrink (runtime_of [])
    (InMemoryCoreLogger.mk (map entry_of ["m1"; "m2"; "m3"]) 5) 2 (entry_of "m4").
Proof.
  split; [lia|]. split; [simpl; lia|].
  apply lowering_capacity_is_lazy; simpl; lia.
Defined.

(** C3 as stated fails for the new capacity 0: two records, capacity lowered
    to 0, one insert; three records are left, not none. *)
Lemma lowering_capacity_to_zero :
  0 < Z.of_nat (length (InMemoryCoreLogger.logs
                          (InMemoryCoreLogger.mk (map entry_of ["m1"; "m2"]) 5))) ∧
  ¬ lazy_shrink (runtime_of [])
      (InMemoryCoreLogger.mk (map entry_of ["m1"; "m2"]) 5) 0 (entry_of "m3").
Proof.
  split; [simpl; lia|].
  intros (_ & Hlen & _). vm_compute in Hlen. discriminate.
Qed.

(** ** Objects as field lists, and the normalizer *)


Lemma get_field_None k (fields : list (string * JsVal)) :
  get_field k fields = None ↔ k ∉ fields.*1.
Proof.
  induction fields as [|[k0 v0] rest IH]; simpl.
  - split; [intros _; apply not_elem_of_nil|done].
  - rewrite not_elem_of_cons. destruct (String.eqb_spec k k0) as [->|Hne].
    + split; [done|]. intros [? _]. done.
    + rewrite IH. split; [by intros ?; split|by intros [_ ?]].
Qed.


Lemma set_field_absent k v fields :
  get_field k fields = None → set_field k v fields = fields ++ [(k, v)].
Proof.
  induction fields as [|[k0 v0] rest IH]; simpl; [done|].
  destruct (String.eqb_spec k k0); [done|]. intros H. by rewrite IH.
Qed.







(** The merge tests of the repository. *)
Example event_data_with_text :
  InMemoryCoreLogger.extractEventData [] (MEvent (mkEvent "test" None 0 VUndefined))
    (VStr "simple string data") =
  VObj [("type", VStr "test"); ("target", VUndefined); ("timeStamp", VNum 0);
        ("additionalData", VStr "simple string data")].
Proof. reflexivity. Qed.

Example text_without_data :
  InMemoryCoreLogger.extractEventData [] (MText "Simple test message") VUndefined = VUndefined.
Proof. reflexivity. Qed.

(** ** Effects *)

Section effects.
Context {A B : Type}.

Lemma bind_unfold (m : Eff A) (f : A → Eff B) w :
  (m ≫= f) w =
  match outcome (m w) with
  | Returned a =>
      mkResult (outcome (f a (world (m w)))) (world (f a (world (m w))))
        (steps (m w) ++ steps (f a (world (m w))))
  | Thrown e => mkResult (Thrown e) (world (m w)) (steps (m w))
  end.
Proof. reflexivity. Qed.

Lemma try_catch_unfold (body : Eff A) (handler : Exn → Eff A) w :
  try_catch body handler w =
  match outcome (body w) with
  | Returned a => body w
  | Thrown e =>
      mkResult (outcome (handler e (world (body w)))) (world (handler e (world (body w))))
        (steps (body w) ++ steps (handler e (world (body w))))
  end.
Proof. reflexivity. Qed.
End effects.

Lemma returns_ret {A} (a : A) : returns (mret a).
Proof. intros w. by exists a. Qed.

Lemma returns_bind {A B} (m : Eff A) (f : A → Eff B) :
  returns m → (∀ a, returns (f a)) → returns (m ≫= f).
Proof.
  intros Hm Hf w. rewrite bind_unfold. destruct (Hm w) as [a ->].
  destruct (Hf a (world (m w))) as [b Hb]. exists b. done.
Qed.

Lemma returns_read {A} (f : World → A) : returns (read f).
Proof. intros w. by eexists. Qed.

Lemma returns_modify f : returns (modify f).
Proof. intros w. by eexists. Qed.

Lemma returns_record s : returns (record s).
Proof. intros w. by eexists. Qed.

Lemma returns_try_catch {A} (body : Eff A) handler :
  (∀ e, returns (handler e)) → returns (try_catch body handler).
Proof.
  intros Hh w. rewrite try_catch_unfold.
  destruct (outcome (body w)) as [a|e] eqn:Hb; [by exists a|].
  destruct (Hh e (world (body w))) as [a Ha]. by exists a.
Qed.

Lemma returns_for_of {A} (xs : list A) body :
  (∀ x, returns (body x)) → returns (for_of xs body).
Proof.
  intros Hb. induction xs as [|x xs IH]; simpl.
  - apply returns_ret.
  - apply returns_bind; [apply Hb|intros _; apply IH].
Qed.

Lemma returns_console_call m args : returns (console_call m args).
Proof. apply returns_modify. Qed.

Lemma returns_unit (m : Eff unit) w : returns m → outcome (m w) = Returned tt.
Proof. intros H. destruct (H w) as [[] ->]. done. Qed.

Lemma steps_bind {A B} (m : Eff A) (f : A → Eff B) w :
  steps ((m ≫= f) w) =
  steps (m w) ++
  match outcome (m w) with
  | Returned a => steps (f a (world (m w)))
  | Thrown _ => []
  end.
Proof. rewrite bind_unfold. destruct (outcome (m w)); simpl; [done|by rewrite app_nil_r]. Qed.

Lemma silent_ret {A} (a : A) : silent (mret a).
Proof. done. Qed.
Lemma silent_throw {A} e : silent (@throw A e).
Proof. done. Qed.
Lemma silent_read {A} (f : World → A) : silent (read f).
Proof. done. Qed.
Lemma silent_modify f : silent (modify f).
Proof. done. Qed.
Lemma silent_bind {A B} (m : Eff A) (f : A → Eff B) :
  silent m → (∀ a, silent (f a)) → silent (m ≫= f).
Proof.
  intros Hm Hf w. rewrite steps_bind, Hm. destruct (outcome (m w)); [apply Hf|done].
Qed.
Lemma silent_try_catch {A} (body : Eff A) handler :
  silent body → (∀ e, silent (handler e)) → silent (try_catch body handler).
Proof.
  intros Hb Hh w. rewrite try_catch_unfold.
  destruct (outcome (body w)) eqn:E; [apply Hb|]. simpl. by rewrite Hb, Hh.
Qed.
Lemma silent_for_of {A} (xs : list A) body :
  (∀ x, silent (body x)) → silent (for_of xs body).
Proof.
  intros Hb. induction xs as [|x xs IH]; simpl; [done|].
  apply silent_bind; [apply Hb|intros _; apply IH].
Qed.
Lemma silent_if {A} (c : bool) (m1 m2 : Eff A) : silent m1 → silent m2 → silent (if c then m1 else m2).
Proof. by destruct c. Qed.

Create HintDb eff.
#[local] Hint Resolve returns_ret returns_bind returns_read returns_modify returns_record
  returns_try_catch returns_for_of returns_console_call
  silent_ret silent_throw silent_read silent_modify silent_bind silent_try_catch
  silent_for_of silent_if : eff.

Lemma silent_console_call m args : silent (console_call m args).
Proof. done. Qed.
Lemma silent_JSON_stringify v : silent (JSON_stringify v).
Proof. intros w. unfold JSON_stringify. by case_match. Qed.
Lemma silent_getItem k : silent (getItem k).
Proof. done. Qed.
Lemma silent_setItem_logs k es : silent (setItem_logs k es).
Proof. intros w. unfold setItem_logs. repeat case_match; done. Qed.
Lemma silent_parse_logs raw : silent (parse_logs raw).
Proof. unfold parse_logs. repeat case_match; done. Qed.
Lemma silent_on_memory r f : silent (on_memory r f).
Proof. done. Qed.
#[local] Hint Resolve silent_console_call silent_JSON_stringify silent_getItem
  silent_setItem_logs silent_parse_logs silent_on_memory : eff.

Lemma silent_console_log lvl m d src : silent (ConsoleCoreLogger.log lvl m d src).
Proof.
  unfold ConsoleCoreLogger.log.
  repeat (first [apply silent_bind; [|intros ?] | destruct lvl | case_match]; auto with eff).
Qed.

Lemma silent_storage_log k n lvl m d src : silent (LocalStorageCoreLogger.log k n lvl m d src).
Proof.
  unfold LocalStorageCoreLogger.log.
  apply silent_try_catch; [|auto with eff].
  repeat (apply silent_bind; [|intros ?]; auto with eff).
Qed.

Lemma steps_accept core lvl m d src w :
  steps (accept core lvl m d src w) = [Accepted (oid core) lvl m d src].
Proof.
  unfold accept. rewrite steps_bind.
  destruct core as [i|i k n|i|i f]; cbn [record outcome steps world oid app].
  - by rewrite silent_console_log.
  - by rewrite silent_storage_log.
  - done.
  - done.
Qed.

Lemma steps_isolated core lvl m d src label w :
  steps (try_catch (accept core lvl m d src)
           (λ err, console_call c_warn [AText label; AExn err]) w) =
  [Accepted (oid core) lvl m d src].
Proof.
  rewrite try_catch_unfold.
  destruct (outcome _) eqn:E; [apply steps_accept|].
  cbn [steps]. by rewrite steps_accept, silent_console_call.
Qed.

Lemma steps_for_of_isolated cores lvl m d src label w :
  steps (for_of cores (λ core, try_catch (accept core lvl m d src)
           (λ err, console_call c_warn [AText label; AExn err])) w) =
  map (λ core, Accepted (oid core) lvl m d src) cores.
Proof.
  revert w. induction cores as [|core cores IH]; intros w; [done|].
  cbn [for_of map]. rewrite steps_bind, steps_isolated.
  rewrite (returns_unit _ w); [|auto with eff].
  by rewrite IH.
Qed.

Lemma resolve_source src w :
  match given src with
  | Some s => mret s
  | None => LoggingService.determineSource
  end w =
  mkResult (Returned (resolved src w)) w
    match given src with
    | Some _ => []
    | None => [DeterminedSource (LoggingService.source_of_stack (errorStack (runtime w)))]
    end.
Proof. unfold resolved. by destruct (given src). Qed.

Lemma broadcast_steps st this lvl m d src w :
  steps (LoggingService.broadcast st this lvl m d src w) =
  match given src with
  | Some _ => []
  | None => [DeterminedSource (LoggingService.source_of_stack (errorStack (runtime w)))]
  end ++
  match LoggingService.inMemoryLogger this with
  | Some inMemory => [Accepted inMemory lvl m d (Some (resolved src w))]
  | None => []
  end ++
  map (λ core, Accepted (oid core) lvl m d src) (LoggingService.activeCoreLoggers st).
Proof.
  unfold LoggingService.broadcast. rewrite steps_bind, resolve_source. cbn [outcome world steps].
  f_equal. rewrite steps_bind.
  destruct (LoggingService.inMemoryLogger this) as [r|].
  - rewrite steps_isolated. rewrite (returns_unit _ w); [|auto with eff].
    by rewrite steps_for_of_isolated.
  - cbn [mret Eff_ret outcome world steps app]. by rewrite steps_for_of_isolated.
Qed.



(** ** Registration *)

Lemma run_unit (m : Eff unit) w :
  returns m → silent m → m w = mkResult (Returned tt) (world (m w)) [].
Proof.
  intros Hr Hs. specialize (Hs w). pose proof (returns_unit m w Hr) as Ho.
  destruct (m w) as [o w' s]. simpl in *. by subst.
Qed.

Lemma setCoreLogger_instance c st : LoggingService.instance (LoggingService.setCoreLogger c st) = LoggingService.instance st.
Proof. unfold LoggingService.setCoreLogger. by case_match. Qed.

Lemma setCoreLogger_keeps c c' st :
  c ∈ LoggingService.activeCoreLoggers st → c ∈ LoggingService.activeCoreLoggers (LoggingService.setCoreLogger c' st).
Proof.
  intros Hin. unfold LoggingService.setCoreLogger. case_match; [done|]. simpl.
  apply elem_of_app. by left.
Qed.

Lemma setCoreLogger_from c c' st :
  c ∈ LoggingService.activeCoreLoggers (LoggingService.setCoreLogger c' st) → c ∈ LoggingService.activeCoreLoggers st ∨ c = c'.
Proof.
  unfold LoggingService.setCoreLogger. case_match; [by left|]. simpl.
  rewrite elem_of_app, list_elem_of_singleton. done.
Qed.


Lemma registerCustoms_instance r customs st :
  LoggingService.instance (fold_left (LoggingService.registerCustom r) customs st) = LoggingService.instance st.
Proof.
  revert st. induction customs as [|c cs IH]; intros st; [done|].
  simpl. rewrite IH. unfold LoggingService.registerCustom. case_match; [done|apply setCoreLogger_instance].
Qed.

Lemma registerCustoms_keeps r customs st c :
  c ∈ LoggingService.activeCoreLoggers st → c ∈ LoggingService.activeCoreLoggers (fold_left (LoggingService.registerCustom r) customs st).
Proof.
  revert st. induction customs as [|c0 cs IH]; intros st Hin; [done|].
  simpl. apply IH. unfold LoggingService.registerCustom. case_match; [done|by apply setCoreLogger_keeps].
Qed.

Lemma registerCustoms_from r customs st c :
  c ∈ LoggingService.activeCoreLoggers (fold_left (LoggingService.registerCustom r) customs st) →
  c ∈ LoggingService.activeCoreLoggers st ∨ c ∈ customs.
Proof.
  revert st. induction customs as [|c0 cs IH]; intros st Hin; [by left|].
  simpl in Hin. apply IH in Hin as [Hin|Hin].
  - unfold LoggingService.registerCustom in Hin. case_match.
    + by left.
    + apply setCoreLogger_from in Hin as [?| ->]; [by left|right; left].
  - right. by right.
Qed.

Lemma registerCores_spec o (this : LoggingService.t) r st w :
  LoggingService.activeCoreLoggers st = [] →
  ∃ st' n,
    LoggingService.registerCores o this r st w = mkResult (Returned st') (set_nextId n w) [] ∧
    (nextId w ≤ n)%nat ∧
    LoggingService.instance st' = LoggingService.instance st ∧
    (default true (Opt.field Opt.enableConsoleCore o) = true →
       ∃ c, c ∈ LoggingService.activeCoreLoggers st' ∧ is_console c = true) ∧
    (default true (Opt.field Opt.enableLocalStorageCore o) = true →
       ∃ c, c ∈ LoggingService.activeCoreLoggers st' ∧ is_storage c = true) ∧
    (∀ c, c ∈ LoggingService.activeCoreLoggers st' →
       (nextId w ≤ oid c)%nat ∧ (is_console c = true ∨ is_storage c = true) ∨
       c ∈ default [] (Opt.field Opt.customCoreLoggers o)).
Proof.
  intros Hnil. unfold LoggingService.registerCores.
  destruct st as [inst act]. simpl in Hnil. subst act.
  destruct (default true (Opt.field Opt.enableConsoleCore o));
    destruct (default true (Opt.field Opt.enableLocalStorageCore o));
    unfold mbind, Eff_bind, mret, Eff_ret, fresh;
    cbn [outcome world steps set_nextId nextId app
         runtime console localStorage quotaExceeded memory].
  - eexists _, (S (S (nextId w))). split; [reflexivity|].
    split; [lia|]. split; [by rewrite registerCustoms_instance, ?setCoreLogger_instance|].
    split; [|split].
    + intros _. exists (ConsoleCore (nextId w)). split; [|done].
      apply registerCustoms_keeps, setCoreLogger_keeps. simpl. left.
    + intros _. exists (LocalStorageCore (S (nextId w)) (LoggingService.storageKey this) 500). split; [|done].
      apply registerCustoms_keeps. unfold LoggingService.setCoreLogger. simpl.
      replace (nextId w =? S (nextId w))%nat with false by (symmetry; apply Nat.eqb_neq; lia).
      simpl. right. left.
    + intros c Hc. apply registerCustoms_from in Hc as [Hc|Hc]; [|by right].
      apply setCoreLogger_from in Hc as [Hc| ->].
      * simpl in Hc. apply list_elem_of_singleton in Hc as ->. left. simpl. split; [lia|by left].
      * left. simpl. split; [lia|by right].
  - eexists _, (S (nextId w)). split; [reflexivity|].
    split; [lia|]. split; [by rewrite registerCustoms_instance, ?setCoreLogger_instance|].
    split; [|split].
    + intros _. exists (ConsoleCore (nextId w)). split; [|done].
      apply registerCustoms_keeps. simpl. left.
    + done.
    + intros c Hc. apply registerCustoms_from in Hc as [Hc|Hc]; [|by right].
      simpl in Hc. apply list_elem_of_singleton in Hc as ->. left. simpl. split; [lia|by left].
  - eexists _, (S (nextId w)). split; [reflexivity|].
    split; [lia|]. split; [by rewrite registerCustoms_instance, ?setCoreLogger_instance|].
    split; [|split].
    + done.
    + intros _. exists (LocalStorageCore (nextId w) (LoggingService.storageKey this) 500). split; [|done].
      apply registerCustoms_keeps. simpl. left.
    + intros c Hc. apply registerCustoms_from in Hc as [Hc|Hc]; [|by right].
      simpl in Hc. apply list_elem_of_singleton in Hc as ->. left. simpl. split; [lia|by right].
  - eexists _, (nextId w). split.
    { simpl. destruct w; reflexivity. }
    split; [lia|]. split; [by rewrite registerCustoms_instance, ?setCoreLogger_instance|].
    split; [done|]. split; [done|].
    intros c Hc. apply registerCustoms_from in Hc as [Hc|Hc]; [|by right].
    simpl in Hc. by apply elem_of_nil in Hc.
Qed.

(** ** Configuration *)

Lemma on_memory_run r f w :
  on_memory r f w =
  mkResult (Returned tt)
    match memory w !! r with
    | Some b => set_memory (<[r := f (runtime w) b]> (memory w)) w
    | None => w
    end [].
Proof. reflexivity. Qed.

Lemma hydration_loop es r w :
  let res := for_of es (λ log, on_memory r (λ rt, InMemoryCoreLogger.addEntry rt log)) w in
  outcome res = Returned tt ∧
  runtime (world res) = runtime w ∧
  console (world res) = console w ∧
  localStorage (world res) = localStorage w ∧
  nextId (world res) = nextId w ∧
  ∀ i, memory (world res) !! i =
       if decide (i = r) then insert_all (runtime w) es <$> memory w !! r
       else memory w !! i.
Proof.
  revert w. induction es as [|e es IH]; intros w.
  - simpl. repeat split; try done. intros i. case_decide; [subst|done].
    by destruct (memory w !! r).
  - cbn [for_of]. cbv zeta. rewrite bind_unfold, on_memory_run. cbn [outcome world steps].
    set (w1 := match memory w !! r with Some b => _ | None => w end).
    destruct (IH w1) as (Ho & Hrt & Hc & Hls & Hn & Hm).
    assert (runtime w1 = runtime w) as Hrt1 by (subst w1; by destruct (memory w !! r)).
    rewrite Ho, Hrt, Hc, Hls, Hn. subst w1.
    repeat split; try (by destruct (memory w !! r)).
    intros i. rewrite Hm, Hrt1. case_decide; [subst i|].
    + destruct (memory w !! r) eqn:E; simpl.
      * by rewrite lookup_insert_eq.
      * by rewrite E.
    + destruct (memory w !! r) eqn:E; simpl; [|done]. by rewrite lookup_insert_ne.
Qed.

Lemma returns_on_memory r f : returns (on_memory r f).
Proof. apply returns_modify. Qed.

Lemma returns_hydrate this r : returns (LoggingService.hydrate this r).
Proof. unfold LoggingService.hydrate. apply returns_try_catch. intros e. apply returns_console_call. Qed.

Lemma silent_hydrate this r : silent (LoggingService.hydrate this r).
Proof.
  unfold LoggingService.hydrate. apply silent_try_catch; [|intros; apply silent_console_call].
  apply silent_bind; [apply silent_getItem|intros raw].
  apply silent_bind; [apply silent_parse_logs|intros es].
  apply silent_for_of. intros. apply silent_on_memory.
Qed.

Lemma hydrate_run this r w :
  LoggingService.hydrate this r w =
  mkResult (Returned tt) (world (LoggingService.hydrate this r w)) [].
Proof. apply run_unit; [apply returns_hydrate|apply silent_hydrate]. Qed.

Lemma result_eta {A} (r : Result A) : mkResult (outcome r) (world r) (steps r) = r.
Proof. by destruct r. Qed.

Lemma bind_ret {A B} (a : A) (k : A → Eff B) w : (mret a ≫= k) w = k a w.
Proof. rewrite bind_unfold. cbn [mret Eff_ret outcome world steps app]. apply result_eta. Qed.

Lemma bind_read {A B} (f : World → A) (k : A → Eff B) w : (read f ≫= k) w = k (f w) w.
Proof. rewrite bind_unfold. cbn [read outcome world steps app]. apply result_eta. Qed.

Lemma bind_modify {B} (f : World → World) (k : unit → Eff B) w :
  (modify f ≫= k) w = k tt (f w).
Proof. rewrite bind_unfold. cbn [modify outcome world steps app]. apply result_eta. Qed.

Lemma bind_throw {A B} (e : Exn) (k : A → Eff B) w : (throw e ≫= k) w = throw e w.
Proof. reflexivity. Qed.

Lemma hydrate_world_eq this r w :
  world (LoggingService.hydrate this r w) =
  match localStorage w !! LoggingService.storageKey this with
  | Some (SLogs es) =>
      world (for_of es (λ log, on_memory r (λ rt, InMemoryCoreLogger.addEntry rt log)) w)
  | Some (SText s) =>
      if String.eqb s "" then w
      else print c_warn
             [AText "Failed to hydrate in-memory logs from storage";
              AExn (JsError "SyntaxError" "Unexpected token in JSON")] w
  | None => w
  end.
Proof.
  unfold LoggingService.hydrate. rewrite try_catch_unfold.
  unfold getItem. rewrite bind_read.
  destruct (localStorage w !! LoggingService.storageKey this) as [[es|s]|];
    cbn [parse_logs].
  - rewrite bind_ret.
    destruct (hydration_loop es r w) as (Ho & _). by rewrite Ho.
  - destruct (String.eqb s ""); [by rewrite bind_ret|by rewrite bind_throw].
  - by rewrite bind_ret.
Qed.

Lemma hydrate_world this r w :
  let w' := world (LoggingService.hydrate this r w) in
  runtime w' = runtime w ∧
  localStorage w' = localStorage w ∧
  nextId w' = nextId w ∧
  ∀ i, memory w' !! i =
       if decide (i = r)
       then insert_all (runtime w) (persisted_under (LoggingService.storageKey this) w)
              <$> memory w !! r
       else memory w !! i.
Proof.
  cbv zeta. rewrite hydrate_world_eq. unfold persisted_under.
  assert (∀ i, memory w !! i =
               if decide (i = r) then insert_all (runtime w) [] <$> memory w !! r
               else memory w !! i) as Hid.
  { intros i. case_decide; [subst|done]. by destruct (memory w !! r). }
  destruct (localStorage w !! LoggingService.storageKey this) as [[es|s]|].
  - destruct (hydration_loop es r w) as (Ho & Hrt & Hc & Hls & Hn & Hm). done.
  - destruct (String.eqb s ""); done.
  - done.
Qed.

Lemma withOptions_inMemoryLogger o this :
  LoggingService.inMemoryLogger (LoggingService.withOptions o this) =
  LoggingService.inMemoryLogger this.
Proof. unfold LoggingService.withOptions. by repeat case_match. Qed.

Lemma selectInMemory_run o this w :
  ∃ r w1,
    LoggingService.selectInMemory o this w = mkResult (Returned r) w1 [] ∧
    runtime w1 = runtime w ∧
    localStorage w1 = localStorage w ∧
    (nextId w ≤ nextId w1)%nat ∧
    ∀ r0, LoggingService.inMemoryLogger this = Some r0 →
      r = r0 ∧ nextId w1 = nextId w ∧
      ∀ i, memory w1 !! i =
           if decide (i = r0) then with_capacity o <$> memory w !! r0 else memory w !! i.
Proof.
  unfold LoggingService.selectInMemory, with_capacity.
  destruct (LoggingService.inMemoryLogger this) as [r0|].
  - destruct (Opt.field Opt.maxLogs o) as [max|].
    + rewrite bind_unfold, on_memory_run. cbn [outcome world steps app].
      unfold mret, Eff_ret. eexists r0, _. split; [reflexivity|].
      destruct (memory w !! r0) eqn:E.
      * split; [done|]. split; [done|]. split; [done|].
        intros ? [= <-]. split; [done|]. split; [done|]. intros i.
        cbn [memory set_memory world].
        case_decide; [subst; by rewrite lookup_insert_eq, E|by rewrite lookup_insert_ne].
      * split; [done|]. split; [done|]. split; [done|].
        intros ? [= <-]. split; [done|]. split; [done|]. intros i.
        case_decide; [subst; by rewrite E|done].
    + eexists r0, w. split; [by rewrite bind_ret|].
      split; [done|]. split; [done|]. split; [done|].
      intros ? [= <-]. split; [done|]. split; [done|].
      intros i. case_decide; [subst|done]. by destruct (memory w !! r0).
  - match goal with |- context [match ?x with Some c => mret (oid c) | None => _ end] =>
      destruct x as [c|] end.
    + eexists (oid c), w. repeat split; done.
    + unfold LoggingService.new_InMemoryCoreLogger, LoggingService.fresh.
      rewrite bind_unfold. cbn [outcome world steps app]. rewrite bind_modify.
      unfold mret, Eff_ret. eexists _, _. split; [reflexivity|].
      cbn [world runtime localStorage nextId set_memory set_nextId].
      repeat split; try done. lia.
Qed.

Lemma configure_run o st this w :
  let this1 := LoggingService.withOptions o this in
  ∃ r st' w',
    LoggingService.configure o st this w = mkResult (Returned st') w' [] ∧
    LoggingService.instance st' =
      Some (LoggingService.mk (LoggingService.maxLogs this1)
              (LoggingService.applicationName this1) (Some r)) ∧
    runtime w' = runtime w ∧
    localStorage w' = localStorage w ∧
    (default true (Opt.field Opt.enableConsoleCore o) = true →
       ∃ c, c ∈ LoggingService.activeCoreLoggers st' ∧ is_console c = true) ∧
    (default true (Opt.field Opt.enableLocalStorageCore o) = true →
       ∃ c, c ∈ LoggingService.activeCoreLoggers st' ∧ is_storage c = true) ∧
    (∀ c, c ∈ LoggingService.activeCoreLoggers st' →
       (nextId w ≤ oid c)%nat ∧ (is_console c = true ∨ is_storage c = true) ∨
       c ∈ default [] (Opt.field Opt.customCoreLoggers o)) ∧
    ∀ r0, LoggingService.inMemoryLogger this = Some r0 →
      r = r0 ∧
      memory w' !! r0 =
        (λ b, insert_all (runtime w)
                (persisted_under (LoggingService.storageKey this1) w) (with_capacity o b))
        <$> memory w !! r0.
Proof.
  intros this1. unfold LoggingService.configure. fold this1.
  destruct (selectInMemory_run o this1 w) as (r & w1 & Hsel & Hrt1 & Hls1 & Hn1 & Hex).
  rewrite bind_unfold, Hsel. cbn [outcome world steps app].
  set (this2 := LoggingService.mk _ _ (Some r)).
  rewrite bind_unfold, hydrate_run. cbn [outcome world steps app].
  set (w2 := world (LoggingService.hydrate this2 r w1)).
  destruct (hydrate_world this2 r w1) as (Hrt2 & Hls2 & Hn2 & Hm2). fold w2 in Hrt2, Hls2, Hn2, Hm2.
  destruct (registerCores_spec o this2 r
              (LoggingService.mkStatics (Some this2) []) w2 eq_refl)
    as (st' & n & Hreg & Hn & Hinst & Hcon & Hsto & Hmem).
  cbn [LoggingService.activeCoreLoggers]. rewrite Hreg. cbn [outcome world steps].
  exists r, st', (set_nextId n w2). split; [done|]. split; [done|].
  split; [by rewrite <- Hrt1, <- Hrt2|]. split; [by rewrite <- Hls1, <- Hls2|].
  split; [done|]. split; [done|]. split.
  - intros c Hc. destruct (Hmem c Hc) as [[Hle Hk]|Hcu]; [left|by right].
    split; [lia|done].
  - intros r0 Hr0. rewrite <- withOptions_inMemoryLogger with (o := o) in Hr0. fold this1 in Hr0.
    destruct (Hex r0 Hr0) as (-> & _ & Hm1). split; [done|].
    cbn [memory set_nextId]. rewrite Hm2, Hm1. rewrite !decide_True by done.
    rewrite Hrt1, <- option_fmap_compose.
    replace (persisted_under (LoggingService.storageKey this2) w1)
      with (persisted_under (LoggingService.storageKey this1) w); [done|].
    unfold persisted_under. by rewrite Hls1.
Qed.

Lemma initialize_existing o st this w :
  LoggingService.instance st = Some this →
  LoggingService.initialize o st w = LoggingService.configure o st this w.
Proof.
  intros H. unfold LoggingService.initialize, LoggingService.getInstance. rewrite H.
  by rewrite bind_ret.
Qed.










(** ** Broadcast *)



(** A console sink that raises on circular data does not stop the storage
    sink behind it: a warning is printed and the record is persisted. *)
Example failing_console_does_not_stop_storage :
  let s := initialized None (unused, world_of cyclic_heap) in
  let r := LoggingService.info s.1 (prior s.1) click (VRef 0%nat) None s.2 in
  outcome r = Returned tt ∧
  output (console (world r)) =
    [(c_warn, [AText "Core logger threw an error:"; AExn circular_json])] ∧
  message <$> last (persisted_under "application-logs" (world r)) = Some "click event".
Proof. vm_compute. done. Qed.

(** A caller-supplied sink that raises, registered first. *)
Example failing_custom_sink_is_isolated :
  let st := LoggingService.mkStatics (Some LoggingService.new)
              [failing_sink 7; LocalStorageCore 8 "application-logs" 500] in
  let r := LoggingService.error st LoggingService.new (MText "boom") VUndefined (Some "Test.run")
             (world_of []) in
  outcome r = Returned tt ∧
  steps r = [Accepted 7 ERROR (MText "boom") VUndefined (Some "Test.run");
             Accepted 8 ERROR (MText "boom") VUndefined (Some "Test.run")] ∧
  message <$> last (persisted_under "application-logs" (world r)) = Some "boom".
Proof. vm_compute. done. Qed.

(** C6: when the caller gives no source, the source is derived once, the
    in-memory logger is invoked with the derived source, and every
    registered sink is invoked with the caller's (absent) source. *)
Theorem derived_source_stays_in_memory st this lvl m d w :
  let s := LoggingService.source_of_stack (errorStack (runtime w)) in
  steps (LoggingService.broadcast st this lvl m d None w) =
  DeterminedSource s ::
  match LoggingService.inMemoryLogger this with
  | Some inMemory => [Accepted inMemory lvl m d (Some s)]
  | None => []
  end ++
  map (λ core, Accepted (oid core) lvl m d None) (LoggingService.activeCoreLoggers st).
Proof. cbv zeta. by rewrite broadcast_steps. Qed.

(** The derived source is in the buffer's record and nowhere else: the
    persisted record has no source and the console prints no source line. *)
Example derived_source_only_in_buffer :
  let s := after_info (MText "hello") VUndefined (initialized None (unused, world_of [])) in
  source <$> LoggingService.getLogs (prior s.1) None s.2 = [Some "UserService.login"] ∧
  source <$> persisted_under "application-logs" s.2 = [None] ∧
  length (output (console s.2)) = 2%nat.
Proof. vm_compute. done. Qed.

(** C9: [clearLogs] empties the in-memory buffer and removes the storage
    item under ["<applicationName>-logs"]; it does not consult the
    registered sinks, and the capacity of every buffer is what it was. *)
Theorem clearLogs_empties_buffer_and_storage this w :
  let r := LoggingService.clearLogs this w in
  outcome r = Returned tt ∧
  LoggingService.getLogs this None (world r) = [] ∧
  localStorage (world r) !! (LoggingService.applicationName this +:+ "-logs") = None ∧
  ∀ i, InMemoryCoreLogger.maxLogs <$> memory (world r) !! i =
       InMemoryCoreLogger.maxLogs <$> memory w !! i.
Proof.
  cbv zeta. unfold LoggingService.clearLogs, LoggingService.getLogs, removeItem.
  destruct (LoggingService.inMemoryLogger this) as [r|].
  - rewrite bind_unfold, on_memory_run. cbn [outcome world steps app modify].
    split; [done|].
    destruct (memory w !! r) as [b0|] eqn:E; cbn [memory set_localStorage set_memory localStorage].
    + rewrite lookup_insert_eq. split; [done|]. split; [apply lookup_delete_eq|].
      intros i. destruct (decide (i = r)) as [->|Hne].
      * by rewrite lookup_insert_eq, E.
      * by rewrite lookup_insert_ne.
    + rewrite E. split; [done|]. split; [apply lookup_delete_eq|]. done.
  - rewrite bind_ret. cbn [modify outcome world set_localStorage localStorage memory].
    split; [done|]. split; [done|]. split; [apply lookup_delete_eq|]. done.
Qed.

Example clearLogs_with_sinks_off :
  let s := after_info (MText "hello") VUndefined (initialized None (unused, world_of [])) in
  let s' := initialized sinks_off s in
  let r := LoggingService.clearLogs (prior s'.1) s'.2 in
  length (LoggingService.getLogs (prior s'.1) None s'.2) = 2%nat ∧
  is_Some (localStorage s'.2 !! "application-logs") ∧
  LoggingService.getLogs (prior s'.1) None (world r) = [] ∧
  localStorage (world r) !! "application-logs" = None.
Proof. vm_compute. split; [done|]. split; [by eexists|done]. Qed.

(** ** The console and the storage sink *)








(** The in-memory logger extracts from the same event what the other sinks
    leave out. *)
Example sinks_differ_on_events :
  let s := after_info click (VObj [("userId", VNum 123)]) (initialized None (unused, world_of [])) in
  (λ e, (message e, data e)) <$> LoggingService.getLogs (prior s.1) None s.2 =
    [("click event on HTMLButtonElement",
      VObj [("type", VStr "click"); ("target", VStr "HTMLButtonElement");
            ("timeStamp", VNum 7); ("userId", VNum 123)])] ∧
  (λ e, (message e, data e)) <$> persisted_under "application-logs" s.2 =
    [("click event", VObj [("userId", VNum 123)])] ∧
  output (console s.2) =
    [(c_info, [AText "[2023-01-01T00:00:00.000Z] [INFO] click event"; AText ""]);
     (c_log, [AText "[2023-01-01T00:00:00.000Z] [INFO] click event"; AText ""])].
Proof. vm_compute. done. Qed.

(** ** Reconfiguration *)

Lemma configure_replaces_registry o st1 st2 this w :
  LoggingService.configure o st1 this w = LoggingService.configure o st2 this w.
Proof. reflexivity. Qed.



(** C8 (the code departs from the claim): re-running [initialize] does not
    leave the accumulated records unchanged. One record is logged with the
    storage sink on (the default) and [initialize] is run again: the records
    persisted under the storage key are inserted once more, so the buffer
    now holds the record and its persisted copy. *)
Theorem reconfigure_reloads_persisted_records :
  let s := after_info (MText "hello") VUndefined (initialized None (unused, world_of [])) in
  let s' := initialized None s in
  LoggingService.instance s.1 = Some (prior s.1) ∧
  message <$> LoggingService.getLogs (prior s.1) None s.2 = ["hello"] ∧
  message <$> LoggingService.getLogs (prior s'.1) None s'.2 = ["hello"; "hello"] ∧
  source <$> LoggingService.getLogs (prior s'.1) None s'.2 = [Some "UserService.login"; None].
Proof. vm_compute. done. Qed.

(** The lazy shrink test of the repository, with nothing persisted: five
    records, capacity lowered to 3 by [initialize], still five; one more
    insert leaves three. *)
Example lowering_maxLogs_by_initialize :
  let s1 :=
    initialized (Some (Opt.mk None (Some false) (Some false) None (Some 10)))
      (unused, world_of []) in
  let logged :=
    foldr (λ msg s, after_info (MText msg) VUndefined s) s1
      ["Message 5"; "Message 4"; "Message 3"; "Message 2"; "Message 1"] in
  let s2 := initialized (Some (Opt.mk None (Some false) (Some false) None (Some 3))) logged in
  let s3 := after_info (MText "Message 6") VUndefined s2 in
  length (LoggingService.getLogs (prior s2.1) None s2.2) = 5%nat ∧
  message <$> LoggingService.getLogs (prior s3.1) None s3.2 =
    ["Message 4"; "Message 5"; "Message 6"].
Proof. vm_compute. done. Qed.

(** ** The serializer *)

Lemma thread_grows {A B : Type} (f : list nat → A → option (B * list nat)) xs :
  (∀ seen x y seen', x ∈ xs → f seen x = Some (y, seen') → seen ⊆ seen') →
  ∀ seen ys seen', thread f seen xs = Some (ys, seen') → seen ⊆ seen'.
Proof.
  induction xs as [|x xs IH]; intros Hf seen ys seen'; simpl.
  - by intros [= _ <-].
  - destruct (f seen x) as [[y seen1]|] eqn:E1; [|done].
    destruct (thread f seen1 xs) as [[ys' seen2]|] eqn:E2; [|done].
    intros [= _ <-]. etrans.
    + eapply Hf; [left|done].
    + eapply IH; [|done]. intros ???? Hin. apply Hf. by right.
Qed.

Lemma serializer_grows fuel h seen v out seen' :
  serializer fuel h seen v = Some (out, seen') → seen ⊆ seen'.
Proof.
  revert seen v out seen'. induction fuel as [|fuel IH]; intros seen v out seen'; [done|].
  assert (∀ xs seen ys seen',
            thread (serializer fuel h) seen xs = Some (ys, seen') → seen ⊆ seen') as Helems.
  { intros xs. apply thread_grows. intros ????? . apply IH. }
  assert (∀ xs seen ys seen',
            thread (on_field (serializer fuel h)) seen xs = Some (ys, seen') → seen ⊆ seen')
    as Hfields.
  { intros xs. apply thread_grows. intros s x y s' _. unfold on_field.
    destruct (serializer fuel h s x.2) as [[v' s'']|] eqn:E; [|done].
    intros [= _ <-]. by eapply IH. }
  assert (∀ xs seen ys seen',
            thread (on_entry (serializer fuel h)) seen xs = Some (ys, seen') → seen ⊆ seen')
    as Hentries.
  { intros xs. apply thread_grows. intros s x y s' _. unfold on_entry.
    destruct (serializer fuel h s x.2) as [[v' s'']|] eqn:E; [|done].
    intros [= _ <-]. by eapply IH. }
  cbn [serializer].
  destruct v as [| | | | | |a|fields|elems]; try (by intros [= _ <-]).
  - destruct (h !! a) as [[fields|elems|n m st|iso txt|txt|entries|values]|].
    + case_bool_decide; [by intros [= _ <-]|].
      destruct (thread _ (a :: seen) fields) as [[o s]|] eqn:E; [|done].
      intros [= _ <-]. apply Hfields in E. set_solver.
    + case_bool_decide; [by intros [= _ <-]|].
      destruct (thread _ (a :: seen) elems) as [[o s]|] eqn:E; [|done].
      intros [= _ <-]. apply Helems in E. set_solver.
    + by intros [= _ <-].
    + by intros [= _ <-].
    + by intros [= _ <-].
    + destruct (thread _ seen entries) as [[o s]|] eqn:E; [|done].
      intros [= _ <-]. by apply Hentries in E.
    + destruct (thread _ seen values) as [[o s]|] eqn:E; [|done].
      intros [= _ <-]. by apply Helems in E.
    + case_bool_decide; intros [= _ <-]; set_solver.
  - destruct (thread _ seen fields) as [[o s]|] eqn:E; [|done].
    intros [= _ <-]. by apply Hfields in E.
  - destruct (thread _ seen elems) as [[o s]|] eqn:E; [|done].
    intros [= _ <-]. by apply Helems in E.
Qed.




Lemma length_filter_mono {A} (P Q : A → Prop) `{!∀ x, Decision (P x)} `{!∀ x, Decision (Q x)} l :
  (∀ x, P x → Q x) → (length (filter P l) ≤ length (filter Q l))%nat.
Proof.
  intros HPQ. induction l as [|x l IH]; [done|].
  rewrite !filter_cons. destruct (decide (P x)) as [HP|HP].
  - rewrite decide_True by auto. simpl. lia.
  - destruct (decide (Q x)); simpl; lia.
Qed.

Lemma length_filter_strict {A} (P Q : A → Prop) `{!∀ x, Decision (P x)} `{!∀ x, Decision (Q x)} l a :
  (∀ x, P x → Q x) → a ∈ l → Q a → ¬ P a →
  (length (filter P l) < length (filter Q l))%nat.
Proof.
  intros HPQ Hin HQ HnP. induction l as [|x l IH]; [by apply elem_of_nil in Hin|].
  rewrite !filter_cons. apply elem_of_cons in Hin as [<-|Hin].
  - rewrite decide_False, decide_True by done. simpl.
    pose proof (length_filter_mono P Q l HPQ). lia.
  - specialize (IH Hin). destruct (decide (P x)) as [HP|HP].
    + rewrite decide_True by auto. simpl. lia.
    + destruct (decide (Q x)); simpl; lia.
Qed.

Lemma unseen_mono h seen seen' : seen ⊆ seen' → (unseen h seen' ≤ unseen h seen)%nat.
Proof. intros Hsub. apply length_filter_mono. intros x Hx Hin. apply Hx. by apply Hsub. Qed.

Lemma unseen_visit h seen a :
  is_Some (h !! a) → a ∉ seen → (unseen h (a :: seen) < unseen h seen)%nat.
Proof.
  intros Ha Hnot. apply (length_filter_strict _ _ _ a).
  - intros x Hx Hin. apply Hx. by right.
  - apply elem_of_seq. apply lookup_lt_is_Some in Ha. lia.
  - done.
  - intros Hx. apply Hx. left.
Qed.

Lemma thread_returns {A B : Type} (f : list nat → A → option (B * list nat))
    (P : list nat → Prop) xs :
  (∀ seen x, x ∈ xs → P seen → ∃ y seen', f seen x = Some (y, seen') ∧ P seen') →
  ∀ seen, P seen → ∃ ys seen', thread f seen xs = Some (ys, seen') ∧ P seen'.
Proof.
  induction xs as [|x xs IH]; intros Hf seen HP; simpl.
  - by exists [], seen.
  - destruct (Hf seen x) as (y & seen1 & -> & HP1); [left|done|].
    destruct (IH (λ s x0 Hin, Hf s x0 (list_elem_of_further _ _ _ Hin)) seen1 HP1)
      as (ys & seen2 & -> & HP2).
    by exists (y :: ys), seen2.
Qed.

Lemma plain_heap_lookup h a o :
  plain_heap h = true → h !! a = Some o → plain_object o = true.
Proof.
  unfold plain_heap. rewrite forallb_forall. intros H Hl.
  apply H, list_elem_of_In. by eapply list_elem_of_lookup_2.
Qed.

Lemma forallb_elem {A : Type} (f : A → bool) (l : list A) x :
  forallb f l = true → x ∈ l → f x = true.
Proof. rewrite forallb_forall. intros H Hin. by apply H, list_elem_of_In. Qed.

(** On a plain heap the recursion is no deeper than the number of objects
    not yet seen. *)
Lemma serializer_returns fuel h seen v :
  plain_heap h = true → flat v = true → (unseen h seen < fuel)%nat →
  ∃ out seen', serializer fuel h seen v = Some (out, seen').
Proof.
  intros Hh. revert seen v. induction fuel as [|fuel IH]; intros seen v Hv Hfuel; [lia|].
  cbn [serializer].
  destruct v as [| | | | | |a|fields|elems]; try done; try by eexists _, _.
  destruct (h !! a) as [o|] eqn:Ha.
  - pose proof (plain_heap_lookup h a o Hh Ha) as Ho.
    destruct o as [fields|elems|n m st|iso txt|txt|entries|values]; try done;
      try by eexists _, _.
    + case_bool_decide as Hin; [by eexists _, _|].
      pose proof (unseen_visit h seen a (mk_is_Some _ _ Ha) Hin) as Hlt.
      destruct (thread_returns (on_field (serializer fuel h))
                  (λ s, (unseen h s < fuel)%nat) fields) with (seen := a :: seen)
        as (out & seen' & -> & _); [|lia|by eexists _, _].
      intros s [k x] Hx Hs. unfold on_field. cbn [fst snd].
      destruct (IH s x) as (y & s' & E); [|done|].
      { apply (forallb_elem _ _ _ Ho). apply list_elem_of_fmap. by exists (k, x). }
      rewrite E. eexists _, _. split; [done|].
      pose proof (unseen_mono h s s' (serializer_grows _ _ _ _ _ _ E)). lia.
    + case_bool_decide as Hin; [by eexists _, _|].
      pose proof (unseen_visit h seen a (mk_is_Some _ _ Ha) Hin) as Hlt.
      destruct (thread_returns (serializer fuel h)
                  (λ s, (unseen h s < fuel)%nat) elems) with (seen := a :: seen)
        as (out & seen' & -> & _); [|lia|by eexists _, _].
      intros s x Hx Hs.
      destruct (IH s x) as (y & s' & E); [|done|].
      { by apply (forallb_elem _ _ _ Ho). }
      rewrite E. eexists _, _. split; [done|].
      pose proof (unseen_mono h s s' (serializer_grows _ _ _ _ _ _ E)). lia.
  - case_bool_decide; by eexists _, _.
Qed.

Lemma unseen_le h seen : (unseen h seen ≤ length h)%nat.
Proof.
  unfold unseen. etrans; [apply length_filter|]. by rewrite length_seq.
Qed.




(** The circular reference test of the repository. *)
Example self_reference_marked :
  safeSerialize (runtime_of cyclic_heap) (VRef 0%nat) =
  VObj [("name", VStr "test"); ("self", circular_marker)].
Proof. reflexivity. Qed.

(** A [Map] is not tracked: one that contains itself uses up the stack, and
    the fallback text is returned. *)
Example self_containing_map :
  safeSerialize (runtime_of [OMap [(VStr "self", VRef 0%nat)]]) (VRef 0%nat) =
  VStr "[object Map]".
Proof. vm_compute. reflexivity. Qed.

Example date_and_map :
  safeSerialize
    (runtime_of [ODate "2023-01-01T00:00:00.000Z" "Sun Jan 01 2023"; OMap [(VStr "k", VStr "v")]])
    (VObj [("date", VRef 0%nat); ("map", VRef 1%nat)]) =
  VObj [("date", tagged "Date" (VStr "2023-01-01T00:00:00.000Z"));
        ("map", tagged "Map" (VArr [VArr [VStr "k"; VStr "v"]]))].
Proof. reflexivity. Qed.

(** * Further properties *)

(** ** The bounded buffer *)

(** X1: with a capacity of at least one, a non-empty sequence of inserts
    leaves the newest [maxLogs] records, as stored and oldest first; the
    buffer holds at most [maxLogs] records and its capacity is unchanged. *)
Theorem buffer_keeps_newest rt es b :
  1 ≤ InMemoryCoreLogger.maxLogs b → es ≠ [] →
  let b' := insert_all rt es b in
  InMemoryCoreLogger.logs b' =
    newest (Z.to_nat (InMemoryCoreLogger.maxLogs b))
      (InMemoryCoreLogger.logs b ++ map (InMemoryCoreLogger.stored rt) es) ∧
  Z.of_nat (length (InMemoryCoreLogger.logs b')) ≤ InMemoryCoreLogger.maxLogs b ∧
  InMemoryCoreLogger.maxLogs b' = InMemoryCoreLogger.maxLogs b.
Proof.
  intros Hmax Hes. cbv zeta. split; [|split].
  - apply insert_all_keeps_newest; [lia|done].
  - apply insert_all_bounded; [lia|done].
  - apply maxLogs_insert_all.
Qed.

Lemma buffer_keeps_newest_witness :
  let b' := insert_all (runtime_of []) [entry_of "a"; entry_of "b"; entry_of "c"]
              (InMemoryCoreLogger.new (Some 2)) in
  InMemoryCoreLogger.logs b' =
    newest (Z.to_nat 2)
      ([] ++ map (InMemoryCoreLogger.stored (runtime_of []))
               [entry_of "a"; entry_of "b"; entry_of "c"]) ∧
  Z.of_nat (length (InMemoryCoreLogger.logs b')) ≤ 2 ∧
  InMemoryCoreLogger.maxLogs b' = 2.
Proof.
  apply (buffer_keeps_newest (runtime_of []) [entry_of "a"; entry_of "b"; entry_of "c"]
           (InMemoryCoreLogger.new (Some 2))).
  - simpl. lia.
  - discriminate.
Defined.

Lemma addEntry_negative rt e b :
  InMemoryCoreLogger.maxLogs b < 0 → InMemoryCoreLogger.logs b = [] →
  InMemoryCoreLogger.logs (InMemoryCoreLogger.addEntry rt e b) = [].
Proof.
  intros Hneg Hnil. unfold InMemoryCoreLogger.addEntry. rewrite Hnil.
  cbn [app length].
  destruct (Z.gtb_spec (Z.of_nat 1) (InMemoryCoreLogger.maxLogs b)); [|lia].
  cbn [InMemoryCoreLogger.logs].
  unfold js_slice. destruct (Z.ltb_spec (- InMemoryCoreLogger.maxLogs b) 0); [lia|].
  cbn [length]. replace (Z.to_nat _) with 1%nat by lia. done.
Qed.

(** X2: with a negative capacity an empty buffer stays empty:
    [slice(-maxLogs)] drops every record as soon as it is pushed. *)
Theorem negative_capacity_discards rt es b :
  InMemoryCoreLogger.maxLogs b < 0 → InMemoryCoreLogger.logs b = [] →
  InMemoryCoreLogger.logs (insert_all rt es b) = [].
Proof.
  revert b. induction es as [|e es IH]; intros b Hneg Hnil; simpl; [done|].
  apply IH; [by rewrite maxLogs_addEntry|by apply addEntry_negative].
Qed.

Lemma negative_capacity_discards_witness :
  InMemoryCoreLogger.logs
    (insert_all (runtime_of []) [entry_of "a"; entry_of "b"] (InMemoryCoreLogger.new (Some (-1)))) = [].
Proof.
  apply (negative_capacity_discards (runtime_of []) [entry_of "a"; entry_of "b"]
           (InMemoryCoreLogger.new (Some (-1)))).
  - simpl. lia.
  - reflexivity.
Defined.





(** ** The normalizer *)

Lemma spread_fresh src dst :
  NoDup (dst.*1 ++ src.*1) → spread src dst = dst ++ src.
Proof.
  unfold spread. revert dst. induction src as [|[k v] rest IH]; intros dst Hnd; simpl.
  - by rewrite app_nil_r.
  - rewrite set_field_absent.
    + rewrite IH; [by rewrite <- app_assoc|].
      rewrite fmap_app. simpl. rewrite <- app_assoc. done.
    + apply get_field_None. simpl in Hnd.
      apply NoDup_app in Hnd as (_ & Hdisj & _). intros Hin. apply (Hdisj k Hin). left.
Qed.

(** X4: the data of a text message. Absent caller data gives no data; an
    object (its keys distinct) gives a copy of its own enumerable
    properties, in order, and no data when it has none; any other value [D]
    (text, number, boolean, [null]) gives [{ additionalData: D }]. *)
Theorem text_message_data h s D :
  NoDup (own_enumerable h D).*1 →
  InMemoryCoreLogger.extractEventData h (MText s) D =
  if is_undefined D then VUndefined
  else if is_object D then
    match own_enumerable h D with
    | [] => VUndefined
    | fields => VObj fields
    end
  else VObj [("additionalData", D)].
Proof.
  intros Hnd. unfold InMemoryCoreLogger.extractEventData.
  cbn [InMemoryCoreLogger.eventFields].
  destruct (is_undefined D); [done|]. cbn [negb].
  destruct (is_object D); [|done].
  rewrite spread_fresh by done. cbn [app].
  by destruct (own_enumerable h D).
Qed.

Lemma text_message_data_witness :
  InMemoryCoreLogger.extractEventData [] (MText "saved") (VObj [("id", VNum 7)]) =
  VObj [("id", VNum 7)].
Proof.
  apply (text_message_data [] "saved" (VObj [("id", VNum 7)])).
  simpl. apply NoDup_singleton.
Defined.

(** X5: caller data that is an [Error], [Date], [RegExp], [Map] or [Set]
    has no own enumerable property, so spreading it adds nothing: the record
    gets the data it would have got without caller data. *)
Theorem class_instance_data_is_dropped h m D :
  class_instance h D = true →
  InMemoryCoreLogger.extractEventData h m D =
  InMemoryCoreLogger.extractEventData h m VUndefined.
Proof.
  intros Hc. unfold InMemoryCoreLogger.extractEventData.
  destruct D as [| | | | | |a| |]; try done.
  cbn [is_undefined negb is_object own_enumerable].
  simpl in Hc. destruct (h !! a) as [[]|]; done.
Qed.

Lemma class_instance_data_is_dropped_witness :
  InMemoryCoreLogger.extractEventData [OError "Error" "boom" (VStr "Error: boom")]
    (MText "failed") (VRef 0) = VUndefined.
Proof.
  apply (class_instance_data_is_dropped [OError "Error" "boom" (VStr "Error: boom")]
           (MText "failed") (VRef 0)).
  reflexivity.
Defined.

(** ** The source of a record *)

Lemma match_frame_nonempty s c m :
  LoggingService.match_frame s = Some (c, m) → m ≠ "" ∧ c ≠ Some "".
Proof.
  unfold LoggingService.match_frame.
  destruct (String.eqb_spec (LoggingService.take_word s).1 "") as [|Hne]; [done|].
  intros H. repeat case_match; simplify_eq; try done.
  all: match goal with H : (_ =? "")%string = false |- _ => apply String.eqb_neq in H end.
  all: split; congruence.
Qed.

Lemma match_caller_frame s r :
  LoggingService.match_caller s = Some r → ∃ t, LoggingService.match_frame t = Some r.
Proof.
  induction s as [|c s IH]; [done|].
  intros H. cbn [LoggingService.match_caller] in H.
  repeat case_match; simplify_eq; eauto.
Qed.

Lemma append_nonempty s t : s ≠ "" → s +:+ t ≠ "".
Proof. by destruct s. Qed.

Lemma source_of_stack_nonempty st : LoggingService.source_of_stack st ≠ "".
Proof.
  unfold LoggingService.source_of_stack.
  destruct (LoggingService.split_lines <$> st) as [stack|]; [|done].
  destruct (4 <? length stack)%nat; [|done].
  destruct (LoggingService.match_caller _) as [[c m]|] eqn:E; [|done].
  apply match_caller_frame in E as [t Ht]. apply match_frame_nonempty in Ht as [Hm Hc].
  destruct c as [c|]; [|done]. apply append_nonempty. congruence.
Qed.

(** X6: [determineSource] never raises, changes nothing, and returns a
    non-empty text. *)
Theorem determineSource_is_never_empty w :
  ∃ s, LoggingService.determineSource w = mkResult (Returned s) w [DeterminedSource s] ∧
       s ≠ "".
Proof.
  exists (LoggingService.source_of_stack (errorStack (runtime w))).
  split; [done|apply source_of_stack_nonempty].
Qed.

(** ** The console sink *)

Lemma console_log_cases lvl m d src w :
  match console_encoding w d with
  | JThrow e => ConsoleCoreLogger.log lvl m d src w = mkResult (Thrown e) w []
  | _ => ConsoleCoreLogger.log lvl m d src w = ConsoleCoreLogger.log lvl m VUndefined src w
  end.
Proof.
  unfold console_encoding, ConsoleCoreLogger.log.
  rewrite !bind_read. cbn [truthy].
  destruct (truthy d) eqn:Ht.
  - rewrite (bind_unfold (JSON_stringify d)). unfold JSON_stringify.
    destruct (jsonify _ _ _ d) eqn:E; cbn [outcome world steps app]; [done| |].
    all: rewrite bind_ret; apply result_eta.
  - done.
Qed.

(** X7: the console sink encodes truthy data with [JSON.stringify] and
    discards the text. When the encoding raises, the sink raises that
    exception and prints nothing; otherwise it behaves as it does without
    data: the data is never printed. *)
Theorem console_sink_ignores_data lvl m d src w :
  match console_encoding w d with
  | JThrow e => ConsoleCoreLogger.log lvl m d src w = mkResult (Thrown e) w []
  | _ => ConsoleCoreLogger.log lvl m d src w = ConsoleCoreLogger.log lvl m VUndefined src w
  end.
Proof. apply console_log_cases. Qed.

Lemma console_log_frame lvl m src w :
  let r := ConsoleCoreLogger.log lvl m VUndefined src w in
  outcome r = Returned tt ∧ world r = set_console (console (world r)) w.
Proof.
  cbv zeta. unfold ConsoleCoreLogger.log. rewrite !bind_read. cbn [truthy]. rewrite bind_ret.
  destruct w as [rt c ls q mem n].
  destruct lvl, (given src), c as [[] [] [] out]; done.
Qed.

(** X8: the console sink changes nothing but the console, and only adds to
    what was printed. *)
Theorem console_sink_touches_console_only lvl m d src w :
  let r := ConsoleCoreLogger.log lvl m d src w in
  world r = set_console (console (world r)) w ∧
  output (console w) `prefix_of` output (console (world r)).
Proof.
  cbv zeta. split.
  - pose proof (console_log_cases lvl m d src w) as H.
    destruct (console_encoding w d); rewrite H; [by destruct w| |]; apply console_log_frame.
  - pose proof (console_log_cases lvl m d src w) as H.
    destruct (console_encoding w d); rewrite H; [done| |].
    all: unfold ConsoleCoreLogger.log; rewrite !bind_read; cbn [truthy]; rewrite bind_ret.
    all: destruct w as [rt c ls q mem n].
    all: destruct lvl, (given src), c as [[] [] [] out]; unfold mbind, Eff_bind, mret, Eff_ret, console_call, modify, print; cbn;
      rewrite <- ?app_assoc; by eexists.
Qed.

(** ** The storage sink *)

Lemma storage_log_run key n lvl m d src w :
  LocalStorageCoreLogger.log key n lvl m d src w =
  mkResult (Returned tt)
    match stored_array key w with
    | None => storage_warning (JsError "SyntaxError" "Unexpected token in JSON") w
    | Some arr =>
        match persisted_all (runtime w)
                (js_slice (- n) (arr ++ [LocalStorageCoreLogger.pushed (runtime w) lvl m d src])) with
        | inl err => storage_warning err w
        | inr out =>
            if quotaExceeded w then storage_warning quota_exceeded w
            else set_localStorage (<[key := SLogs out]> (localStorage w)) w
        end
    end [].
Proof.
  unfold LocalStorageCoreLogger.log, stored_array.
  rewrite try_catch_unfold, bind_read. unfold getItem. rewrite bind_read.
  assert (∀ arr,
    (parse_logs (Some (SLogs arr)) ≫= λ arr0,
       setItem_logs key (js_slice (- n) (arr0 ++ [LocalStorageCoreLogger.pushed (runtime w) lvl m d src]))) w
    = setItem_logs key (js_slice (- n) (arr ++ [LocalStorageCoreLogger.pushed (runtime w) lvl m d src])) w) as Hp.
  { intros arr. cbn [parse_logs]. by rewrite bind_ret. }
  destruct (localStorage w !! key) as [[es|s]|]; cbn [parse_logs].
  - rewrite bind_ret. unfold setItem_logs.
    destruct (persisted_all _ _); [done|]. by destruct (quotaExceeded w).
  - destruct (String.eqb s "").
    + rewrite bind_ret. unfold setItem_logs.
      destruct (persisted_all _ _); [done|]. by destruct (quotaExceeded w).
    + by rewrite bind_throw.
  - rewrite bind_ret. unfold setItem_logs.
    destruct (persisted_all _ _); [done|]. by destruct (quotaExceeded w).
Qed.

Lemma storage_log_outcomes key n lvl m d src w :
  let r := LocalStorageCoreLogger.log key n lvl m d src w in
  outcome r = Returned tt ∧
  ((∃ err, world r = storage_warning err w) ∨
   (∃ out, world r = set_localStorage (<[key := SLogs out]> (localStorage w)) w)).
Proof.
  cbv zeta. rewrite storage_log_run. cbn [outcome world]. split; [done|].
  destruct (stored_array key w); [|left; by eexists].
  destruct (persisted_all _ _); [left; by eexists|].
  destruct (quotaExceeded w); [left; by eexists|right; by eexists].
Qed.










(** ** The registered sinks *)

Lemma includes_spec cores c :
  LoggingService.includes cores c = true ↔ oid c ∈ oid <$> cores.
Proof.
  unfold LoggingService.includes. rewrite existsb_exists, list_elem_of_fmap. split.
  - intros (x & Hin & Heq). apply Nat.eqb_eq in Heq. exists x. split; [done|].
    by apply list_elem_of_In.
  - intros (x & Heq & Hin). exists x. split; [by apply list_elem_of_In|].
    by apply Nat.eqb_eq.
Qed.

Lemma registered_setCoreLogger c st :
  registered (LoggingService.setCoreLogger c st) =
  if LoggingService.includes (LoggingService.activeCoreLoggers st) c
  then registered st else registered st ++ [oid c].
Proof.
  unfold LoggingService.setCoreLogger, registered. case_match; [done|].
  cbn [LoggingService.activeCoreLoggers]. by rewrite fmap_app.
Qed.

(** X24: [setCoreLogger] leaves the sink registered and keeps the sinks
    registered before, in order; registering the same sink again changes
    nothing. *)
Theorem setCoreLogger_registers_once c st :
  let st' := LoggingService.setCoreLogger c st in
  oid c ∈ registered st' ∧
  LoggingService.activeCoreLoggers st `prefix_of` LoggingService.activeCoreLoggers st' ∧
  LoggingService.setCoreLogger c st' = st'.
Proof.
  cbv zeta.
  destruct (LoggingService.includes (LoggingService.activeCoreLoggers st) c) eqn:E.
  - assert (LoggingService.setCoreLogger c st = st) as ->.
    { unfold LoggingService.setCoreLogger. by rewrite E. }
    split; [by apply includes_spec|]. split; [done|].
    unfold LoggingService.setCoreLogger. by rewrite E.
  - assert (LoggingService.setCoreLogger c st =
            LoggingService.mkStatics (LoggingService.instance st)
              (LoggingService.activeCoreLoggers st ++ [c])) as ->.
    { unfold LoggingService.setCoreLogger. by rewrite E. }
    assert (oid c ∈ oid <$> (LoggingService.activeCoreLoggers st ++ [c])) as Hin.
    { rewrite fmap_app. apply elem_of_app. right. by apply list_elem_of_singleton. }
    split; [done|]. split; [by exists [c]|].
    apply includes_spec in Hin.
    unfold LoggingService.setCoreLogger. cbn [LoggingService.activeCoreLoggers].
    by rewrite Hin.
Qed.

Lemma setCoreLogger_NoDup c st :
  NoDup (registered st) → NoDup (registered (LoggingService.setCoreLogger c st)).
Proof.
  intros Hnd. rewrite registered_setCoreLogger.
  destruct (LoggingService.includes _ c) eqn:E; [done|].
  apply NoDup_app. split; [done|]. split; [|apply NoDup_singleton].
  intros x Hx Hx'. apply list_elem_of_singleton in Hx' as ->.
  apply includes_spec in Hx. congruence.
Qed.

Lemma registerCustoms_NoDup r customs st :
  NoDup (registered st) →
  NoDup (registered (fold_left (LoggingService.registerCustom r) customs st)).
Proof.
  revert st. induction customs as [|c cs IH]; intros st Hnd; [done|].
  simpl. apply IH. unfold LoggingService.registerCustom.
  case_match; [done|by apply setCoreLogger_NoDup].
Qed.

Lemma registerCustoms_skip r customs st :
  r ∉ registered st →
  r ∉ registered (fold_left (LoggingService.registerCustom r) customs st).
Proof.
  revert st. induction customs as [|c cs IH]; intros st Hr; [done|].
  simpl. apply IH. unfold LoggingService.registerCustom.
  destruct (Nat.eqb_spec (oid c) r) as [|Hne]; [done|].
  rewrite registered_setCoreLogger. case_match; [done|].
  rewrite not_elem_of_app, list_elem_of_singleton. split; [done|congruence].
Qed.

Lemma registerCustoms_existsb (f : CoreLogger → bool) r customs st :
  Forall (λ c, f c = false) customs →
  existsb f (LoggingService.activeCoreLoggers (fold_left (LoggingService.registerCustom r) customs st)) =
  existsb f (LoggingService.activeCoreLoggers st).
Proof.
  revert st. induction customs as [|c cs IH]; intros st Hf; [done|].
  apply Forall_cons in Hf as [Hc Hcs]. simpl. rewrite IH by done.
  unfold LoggingService.registerCustom, LoggingService.setCoreLogger.
  repeat case_match; try done. cbn [LoggingService.activeCoreLoggers].
  rewrite existsb_app. simpl. rewrite Hc. by rewrite !orb_false_r.
Qed.

Lemma registerCores_run o (this : LoggingService.t) r inst w :
  LoggingService.registerCores o this r (LoggingService.mkStatics inst []) w =
  mkResult
    (Returned (fold_left (LoggingService.registerCustom r) (customs_of o)
                 (LoggingService.mkStatics inst (built_in_cores o this (nextId w)))))
    (set_nextId (nextId w + length (built_in_cores o this (nextId w))) w) [].
Proof.
  unfold LoggingService.registerCores, built_in_cores, customs_of.
  destruct (default true (Opt.field Opt.enableConsoleCore o));
    destruct (default true (Opt.field Opt.enableLocalStorageCore o));
    unfold mbind, Eff_bind, mret, Eff_ret, LoggingService.fresh;
    cbn [outcome world steps set_nextId nextId app length
         runtime console localStorage quotaExceeded memory].
  - unfold LoggingService.setCoreLogger at 2. cbn.
    unfold LoggingService.setCoreLogger. cbn.
    replace (nextId w =? S (nextId w))%nat with false by (symmetry; apply Nat.eqb_neq; lia).
    cbn. f_equal. destruct w. unfold set_nextId. cbn. f_equal. lia.
  - cbn. f_equal. destruct w. unfold set_nextId. cbn. f_equal. lia.
  - cbn. f_equal. destruct w. unfold set_nextId. cbn. f_equal. lia.
  - cbn. f_equal. destruct w. unfold set_nextId. cbn. f_equal. lia.
Qed.

Lemma selectInMemory_origin o this w :
  ∃ r w1,
    LoggingService.selectInMemory o this w = mkResult (Returned r) w1 [] ∧
    (nextId w ≤ nextId w1)%nat ∧
    match LoggingService.inMemoryLogger this with
    | Some r0 => r = r0
    | None => (r < nextId w1)%nat ∨ ∃ c, c ∈ customs_of o ∧ oid c = r
    end.
Proof.
  destruct (selectInMemory_run o this w) as (r & w1 & Hsel & _ & _ & Hn & Hex).
  exists r, w1. split; [done|]. split; [done|].
  destruct (LoggingService.inMemoryLogger this) as [r0|] eqn:Hi.
  - by destruct (Hex r0 eq_refl).
  - unfold LoggingService.selectInMemory in Hsel. rewrite Hi in Hsel.
    unfold customs_of.
    destruct (Opt.field Opt.customCoreLoggers o) as [customs|]; cbn [default].
    + destruct (List.find LoggingService.is_advanced customs) as [c|] eqn:Hf.
      * right. exists c. split.
        -- apply list_elem_of_In. by apply find_some in Hf as [? _].
        -- by injection Hsel as -> _.
      * left. injection Hsel as <- <-. cbn. lia.
    + left. injection Hsel as <- <-. cbn. lia.
Qed.

Lemma configure_registry o st this w :
  ∃ r st' w' n this',
    LoggingService.configure o st this w = mkResult (Returned st') w' [] ∧
    this' = LoggingService.mk (LoggingService.maxLogs (LoggingService.withOptions o this))
              (LoggingService.applicationName (LoggingService.withOptions o this)) (Some r) ∧
    (nextId w ≤ n)%nat ∧ (n ≤ nextId w')%nat ∧
    st' = fold_left (LoggingService.registerCustom r) (customs_of o)
            (LoggingService.mkStatics (Some this') (built_in_cores o this' n)) ∧
    match LoggingService.inMemoryLogger this with
    | Some r0 => r = r0
    | None => (r < n)%nat ∨ ∃ c, c ∈ customs_of o ∧ oid c = r
    end.
Proof.
  unfold LoggingService.configure.
  destruct (selectInMemory_origin o (LoggingService.withOptions o this) w)
    as (r & w1 & Hsel & Hn1 & Hr).
  rewrite withOptions_inMemoryLogger in Hr.
  rewrite bind_unfold, Hsel. cbn [outcome world steps app].
  set (this2 := LoggingService.mk _ _ (Some r)).
  rewrite bind_unfold, hydrate_run. cbn [outcome world steps app].
  destruct (hydrate_world this2 r w1) as (_ & _ & Hn2 & _).
  cbn [LoggingService.activeCoreLoggers]. rewrite registerCores_run.
  cbn [outcome world steps]. rewrite Hn2.
  eexists r, _, _, (nextId w1), this2. split; [reflexivity|]. split; [done|].
  split; [done|]. split; [cbn; lia|]. split; [done|].
  destruct (LoggingService.inMemoryLogger this); done.
Qed.

Lemma initialize_registry o st w :
  ∃ r st' w' n this',
    LoggingService.initialize o st w = mkResult (Returned st') w' [] ∧
    LoggingService.inMemoryLogger this' = Some r ∧
    LoggingService.applicationName this' =
      LoggingService.applicationName (LoggingService.withOptions o (prior st)) ∧
    LoggingService.maxLogs this' =
      LoggingService.maxLogs (LoggingService.withOptions o (prior st)) ∧
    (nextId w ≤ n)%nat ∧
    st' = fold_left (LoggingService.registerCustom r) (customs_of o)
            (LoggingService.mkStatics (Some this') (built_in_cores o this' n)) ∧
    match LoggingService.inMemoryLogger (prior st) with
    | Some r0 => r = r0
    | None => (r < n)%nat ∨ ∃ c, c ∈ customs_of o ∧ oid c = r
    end.
Proof.
  unfold prior. destruct (LoggingService.instance st) as [this|] eqn:Hi.
  - rewrite (initialize_existing o st this w Hi).
    destruct (configure_registry o st this w) as (r & st' & w' & n & this' & -> & -> & Hn & _ & -> & Hr).
    eexists r, _, w', n,
      (LoggingService.mk (LoggingService.maxLogs (LoggingService.withOptions o this))
         (LoggingService.applicationName (LoggingService.withOptions o this)) (Some r)).
    split; [reflexivity|]. repeat (split; [done|]). exact Hr.
  - unfold LoggingService.initialize, LoggingService.getInstance. rewrite Hi.
    destruct (configure_registry None
                (LoggingService.mkStatics (Some LoggingService.new) (LoggingService.activeCoreLoggers st))
                LoggingService.new w)
      as (r1 & st1 & w1 & n1 & this1 & Hrun1 & -> & Hn1 & Hn1' & -> & Hr1).
    rewrite bind_unfold. rewrite bind_unfold, Hrun1. cbn [outcome world steps app].
    cbn [customs_of Opt.field default fold_left LoggingService.instance mret Eff_ret
         outcome world steps fst snd app]. unfold id. rewrite result_eta.
    set (this1 := LoggingService.mk _ _ (Some r1)).
    set (st1 := LoggingService.mkStatics (Some this1) _).
    destruct (configure_registry o st1 this1 w1)
      as (r & st' & w' & n & this' & -> & -> & Hn & _ & -> & Hr).
    cbn in Hr. subst r.
    eexists r1, _, w', n,
      (LoggingService.mk (LoggingService.maxLogs (LoggingService.withOptions o this1))
         (LoggingService.applicationName (LoggingService.withOptions o this1)) (Some r1)).
    split; [reflexivity|]. split; [done|].
    split.
    { unfold LoggingService.withOptions.
      by destruct (given (Opt.field Opt.applicationName o)), (Opt.field Opt.maxLogs o). }
    split.
    { unfold LoggingService.withOptions.
      by destruct (given (Opt.field Opt.applicationName o)), (Opt.field Opt.maxLogs o). }
    split; [lia|]. split; [done|].
    cbn. left. cbn in Hr1. destruct Hr1 as [?|(c & Hc & _)]; [lia|].
    by apply elem_of_nil in Hc.
Qed.

Lemma built_in_cores_registered o this n i :
  i ∈ oid <$> built_in_cores o this n → (n ≤ i)%nat.
Proof.
  unfold built_in_cores.
  destruct (default true (Opt.field Opt.enableConsoleCore o)),
           (default true (Opt.field Opt.enableLocalStorageCore o)); cbn;
    rewrite ?elem_of_cons, ?elem_of_nil; intros H; lia.
Qed.

Lemma built_in_cores_NoDup o this n : NoDup (oid <$> built_in_cores o this n).
Proof.
  unfold built_in_cores.
  destruct (default true (Opt.field Opt.enableConsoleCore o)),
           (default true (Opt.field Opt.enableLocalStorageCore o)); cbn;
    repeat constructor; rewrite ?elem_of_cons, ?elem_of_nil; lia.
Qed.

(** X13: after [initialize] the instance holds an in-memory logger that is
    not among the registered sinks, and no sink is registered twice,
    provided the objects handed in were created before the call (their
    identities are below the next fresh one). *)
Theorem canonical_store_is_not_registered o st w :
  (∀ r0, LoggingService.inMemoryLogger (prior st) = Some r0 → (r0 < nextId w)%nat) →
  Forall (λ c, (oid c < nextId w)%nat) (customs_of o) →
  let res := LoggingService.initialize o st w in
  ∃ st' this' r,
    outcome res = Returned st' ∧
    LoggingService.instance st' = Some this' ∧
    LoggingService.inMemoryLogger this' = Some r ∧
    (r ∉ registered st') ∧
    NoDup (registered st').
Proof.
  intros Hold Hcustoms. cbv zeta.
  destruct (initialize_registry o st w)
    as (r & st' & w' & n & this' & -> & Hmem & _ & _ & Hn & -> & Hr).
  exists (fold_left (LoggingService.registerCustom r) (customs_of o)
            (LoggingService.mkStatics (Some this') (built_in_cores o this' n))), this', r.
  split; [done|]. split; [by rewrite registerCustoms_instance|]. split; [done|].
  split.
  - apply registerCustoms_skip. unfold registered. cbn [LoggingService.activeCoreLoggers].
    intros Hin. apply built_in_cores_registered in Hin.
    destruct (LoggingService.inMemoryLogger (prior st)) as [r0|].
    + subst r0. specialize (Hold r eq_refl). lia.
    + destruct Hr as [?|(c & Hc & <-)]; [lia|].
      rewrite Forall_forall in Hcustoms. specialize (Hcustoms c Hc). simpl in Hcustoms. lia.
  - apply registerCustoms_NoDup. apply built_in_cores_NoDup.
Qed.

Lemma canonical_store_is_not_registered_witness :
  ∃ st' this' r,
    outcome (LoggingService.initialize (Some (Opt.mk None None None (Some [InMemoryCore 0; InMemoryCore 0]) None))
               (initialized None (unused, world_of [])).1
               (initialized None (unused, world_of [])).2) = Returned st' ∧
    LoggingService.instance st' = Some this' ∧
    LoggingService.inMemoryLogger this' = Some r ∧
    (r ∉ registered st') ∧
    NoDup (registered st').
Proof.
  apply (canonical_store_is_not_registered
           (Some (Opt.mk None None None (Some [InMemoryCore 0; InMemoryCore 0]) None))
           (initialized None (unused, world_of [])).1
           (initialized None (unused, world_of [])).2).
  - intros r0. vm_compute. intros [= <-]. lia.
  - vm_compute. repeat constructor.
Defined.

(** X14: when no custom logger is a console or storage sink,
    [getConfiguration] after [initialize] reports exactly the two flags of
    the call, an unset flag counting as [true]. *)
Theorem configuration_reports_enabled_sinks o st w :
  Forall (λ c, is_console c = false) (customs_of o) →
  Forall (λ c, is_storage c = false) (customs_of o) →
  let res := LoggingService.initialize o st w in
  ∃ st' this',
    outcome res = Returned st' ∧
    LoggingService.instance st' = Some this' ∧
    Cfg.enableConsoleCore (LoggingService.getConfiguration st' this' (world res)) =
      default true (Opt.field Opt.enableConsoleCore o) ∧
    Cfg.enableLocalStorageCore (LoggingService.getConfiguration st' this' (world res)) =
      default true (Opt.field Opt.enableLocalStorageCore o).
Proof.
  intros Hcon Hsto. cbv zeta.
  destruct (initialize_registry o st w)
    as (r & st' & w' & n & this' & -> & Hmem & _ & _ & Hn & -> & Hr).
  eexists _, this'. split; [reflexivity|]. split; [by rewrite registerCustoms_instance|].
  cbn [LoggingService.getConfiguration Cfg.enableConsoleCore Cfg.enableLocalStorageCore].
  rewrite !registerCustoms_existsb by done. cbn [LoggingService.activeCoreLoggers].
  unfold built_in_cores.
  destruct (default true (Opt.field Opt.enableConsoleCore o)),
           (default true (Opt.field Opt.enableLocalStorageCore o)); done.
Qed.

Lemma configuration_reports_enabled_sinks_witness :
  ∃ st' this',
    outcome (LoggingService.initialize sinks_off unused (world_of [])) = Returned st' ∧
    LoggingService.instance st' = Some this' ∧
    Cfg.enableConsoleCore
      (LoggingService.getConfiguration st' this'
         (world (LoggingService.initialize sinks_off unused (world_of [])))) = false ∧
    Cfg.enableLocalStorageCore
      (LoggingService.getConfiguration st' this'
         (world (LoggingService.initialize sinks_off unused (world_of [])))) = false.
Proof.
  apply (configuration_reports_enabled_sinks sinks_off unused (world_of [])).
  - apply Forall_nil_2.
  - apply Forall_nil_2.
Defined.



(** ** Logging, first access and hydration *)

Lemma built_in_sink_frame core lvl m d src label w :
  is_built_in core = true →
  let r := try_catch (accept core lvl m d src)
             (λ err, console_call c_warn [AText label; AExn err]) w in
  outcome r = Returned tt ∧ memory (world r) = memory w ∧ runtime (world r) = runtime w.
Proof.
  intros Hb. cbv zeta. rewrite try_catch_unfold.
  destruct core as [i|i k n|i|i f]; try done.
  - assert (outcome (accept (ConsoleCore i) lvl m d src w) =
            outcome (ConsoleCoreLogger.log lvl m d src w)) as Hao by reflexivity.
    assert (world (accept (ConsoleCore i) lvl m d src w) =
            world (ConsoleCoreLogger.log lvl m d src w)) as Hw by reflexivity.
    pose proof (console_log_cases lvl m d src w) as H.
    destruct (console_log_frame lvl m src w) as [Ho Hf].
    destruct (console_encoding w d).
    + rewrite Hao, H. cbn [outcome world]. rewrite Hw, H. repeat split; reflexivity.
    + rewrite Hao, H, Ho. cbv iota. rewrite Hao, Hw, H, Ho, Hf. repeat split; reflexivity.
    + rewrite Hao, H, Ho. cbv iota. rewrite Hao, Hw, H, Ho, Hf. repeat split; reflexivity.
  - assert (outcome (accept (LocalStorageCore i k n) lvl m d src w) =
            outcome (LocalStorageCoreLogger.log k n lvl m d src w)) as Hao by reflexivity.
    assert (world (accept (LocalStorageCore i k n) lvl m d src w) =
            world (LocalStorageCoreLogger.log k n lvl m d src w)) as Hw by reflexivity.
    destruct (storage_log_outcomes k n lvl m d src w) as [Ho [[err He]|[out He]]];
      rewrite Hao, Ho; cbv iota; rewrite Hao, Hw, Ho, He; repeat split; reflexivity.
Qed.

Lemma built_in_sinks_frame cores lvl m d src label w :
  Forall (λ c, is_built_in c = true) cores →
  let r := for_of cores (λ core,
             try_catch (accept core lvl m d src)
               (λ err, console_call c_warn [AText label; AExn err])) w in
  memory (world r) = memory w ∧ runtime (world r) = runtime w.
Proof.
  revert w. induction cores as [|c cs IH]; intros w Hall; [done|].
  apply Forall_cons in Hall as [Hc Hcs]. cbv zeta. cbn [for_of].
  rewrite bind_unfold.
  destruct (built_in_sink_frame c lvl m d src label w Hc) as (Ho & Hm & Hrt).
  rewrite Ho. cbn [world].
  set (w1 := world (try_catch _ _ w)) in *.
  destruct (IH w1 Hcs) as [Hm' Hrt']. cbv zeta in Hm', Hrt'. by rewrite Hm', Hrt'.
Qed.

(** X16: with console and storage sinks registered and an in-memory logger
    of capacity at least one, a log call adds to the buffer exactly the
    record [addEntry] stores for the normalized input, whatever the sinks do;
    it is the last record [getLogs] returns, and its source is never empty. *)
Theorem broadcast_stores_record st this lvl m d src w r b :
  LoggingService.inMemoryLogger this = Some r →
  memory w !! r = Some b →
  1 ≤ InMemoryCoreLogger.maxLogs b →
  Forall (λ c, is_built_in c = true) (LoggingService.activeCoreLoggers st) →
  let res := LoggingService.broadcast st this lvl m d src w in
  let entry := InMemoryCoreLogger.entryOf (runtime w) lvl m d (Some (resolved src w)) in
  LoggingService.getLogs this None (world res) =
    InMemoryCoreLogger.logs (InMemoryCoreLogger.addEntry (runtime w) entry b) ∧
  last (LoggingService.getLogs this None (world res)) =
    Some (InMemoryCoreLogger.stored (runtime w) entry) ∧
  resolved src w ≠ "".
Proof.
  intros Hthis Hb Hmax Hall. cbv zeta.
  assert (LoggingService.getLogs this None
            (world (LoggingService.broadcast st this lvl m d src w)) =
          InMemoryCoreLogger.logs
            (InMemoryCoreLogger.addEntry (runtime w)
               (InMemoryCoreLogger.entryOf (runtime w) lvl m d (Some (resolved src w))) b)) as ->.
  { unfold LoggingService.broadcast, LoggingService.getLogs. rewrite Hthis.
    rewrite bind_unfold, resolve_source. cbn [outcome world steps].
    rewrite bind_unfold. rewrite try_catch_unfold.
    assert (accept (InMemoryCore r) lvl m d (Some (resolved src w)) w =
            mkResult (Returned tt)
              (set_memory (<[r := InMemoryCoreLogger.log (runtime w) lvl m d
                                   (Some (resolved src w)) b]> (memory w)) w)
              [Accepted r lvl m d (Some (resolved src w))]) as ->.
    { unfold accept. rewrite bind_unfold. cbn [record outcome world steps oid].
      rewrite on_memory_run, Hb. done. }
    cbn [outcome world steps].
    match goal with |- context [for_of _ _ ?w1] =>
      destruct (built_in_sinks_frame (LoggingService.activeCoreLoggers st) lvl m d src
                  "Core logger threw an error:" w1 Hall) as [Hm _] end.
    cbv zeta in Hm. rewrite Hm. cbn [memory set_memory]. by rewrite lookup_insert_eq. }
  split; [done|]. split.
  - rewrite logs_addEntry by lia. apply last_newest. lia.
  - unfold resolved. destruct src as [s|]; cbn [given].
    + destruct (String.eqb_spec s ""); [apply source_of_stack_nonempty|done].
    + apply source_of_stack_nonempty.
Qed.

Lemma broadcast_stores_record_witness :
  let s := initialized None (unused, world_of []) in
  let res := LoggingService.broadcast s.1 (prior s.1) INFO (MText "hello") VUndefined None s.2 in
  let entry := InMemoryCoreLogger.entryOf (runtime s.2) INFO (MText "hello") VUndefined
                 (Some (resolved None s.2)) in
  LoggingService.getLogs (prior s.1) None (world res) =
    InMemoryCoreLogger.logs
      (InMemoryCoreLogger.addEntry (runtime s.2) entry (InMemoryCoreLogger.new None)) ∧
  last (LoggingService.getLogs (prior s.1) None (world res)) =
    Some (InMemoryCoreLogger.stored (runtime s.2) entry) ∧
  resolved None s.2 ≠ "".
Proof.
  apply (broadcast_stores_record (initialized None (unused, world_of [])).1
           (prior (initialized None (unused, world_of [])).1) INFO (MText "hello") VUndefined None
           (initialized None (unused, world_of [])).2 0 (InMemoryCoreLogger.new None)).
  - reflexivity.
  - reflexivity.
  - simpl. lia.
  - vm_compute. repeat constructor.
Defined.








(** X18: [getInstance] never raises, and a second call returns the same
    instance and changes nothing. *)
Theorem getInstance_is_idempotent st w :
  let res := LoggingService.getInstance st w in
  ∃ this st',
    outcome res = Returned (this, st') ∧
    LoggingService.instance st' = Some this ∧
    LoggingService.getInstance st' (world res) = mkResult (Returned (this, st')) (world res) [].
Proof.
  cbv zeta. unfold LoggingService.getInstance at 1 2.
  destruct (LoggingService.instance st) as [this|] eqn:Hi.
  - exists this, st. split; [done|]. split; [done|].
    unfold LoggingService.getInstance. by rewrite Hi.
  - destruct (configure_run None
                (LoggingService.mkStatics (Some LoggingService.new) (LoggingService.activeCoreLoggers st))
                LoggingService.new w)
      as (r & st1 & w1 & Hrun & Hinst & _).
    rewrite bind_unfold, Hrun. cbn [outcome world steps app mret Eff_ret].
    rewrite Hinst. cbn [default]. eexists _, st1. split; [done|]. split; [done|].
    unfold LoggingService.getInstance. by rewrite Hinst.
Qed.




(** ** The serializer of the sinks *)



Lemma thread_Forall {A B : Type} (f : list nat → A → option (B * list nat)) (P : B → Prop) xs :
  (∀ s x y s', f s x = Some (y, s') → P y) →
  ∀ seen ys seen', thread f seen xs = Some (ys, seen') → Forall P ys.
Proof.
  intros Hf. induction xs as [|x xs IH]; intros seen ys seen'; simpl.
  - by intros [= <- <-].
  - destruct (f seen x) as [[y s1]|] eqn:E; [|done].
    destruct (thread f s1 xs) as [[ys' s2]|] eqn:E'; [|done].
    intros [= <- <-]. constructor; [by eapply Hf|by eapply IH].
Qed.

Lemma thread_fixed {A : Type} (f : list nat → A → option (A * list nat)) xs :
  Forall (λ x, ∀ s, f s x = Some (x, s)) xs → ∀ seen, thread f seen xs = Some (xs, seen).
Proof.
  induction 1 as [|x xs Hx _ IH]; intros seen; simpl; [done|]. by rewrite Hx, IH.
Qed.

Lemma thread_more {A B : Type} (f g : list nat → A → option (B * list nat)) xs :
  (∀ s x r, f s x = Some r → g s x = Some r) →
  ∀ seen r, thread f seen xs = Some r → thread g seen xs = Some r.
Proof.
  intros Hfg. induction xs as [|x xs IH]; intros seen r; simpl; [done|].
  destruct (f seen x) as [[y s1]|] eqn:E; [|done]. rewrite (Hfg _ _ _ E).
  destruct (thread f s1 xs) as [[ys s2]|] eqn:E'; [|done]. by rewrite (IH _ _ E').
Qed.


Lemma text_stacks_lookup h a n m st :
  text_stacks h = true → h !! a = Some (OError n m st) → is_object st = false.
Proof.
  intros H Hl. pose proof (forallb_elem _ _ _ H (list_elem_of_lookup_2 _ _ _ Hl)) as Hs.
  simpl in Hs. by apply negb_true_iff.
Qed.




Lemma serializer_S fuel h seen val :
  serializer (S fuel) h seen val =
  let ser := serializer fuel h in
  let fields_of (seen : list nat) (fields : list (string * JsVal)) :=
    match thread (on_field ser) seen fields with
    | None => None
    | Some (out, seen') => Some (VObj out, seen')
    end in
  let elems_of (seen : list nat) (elems : list JsVal) :=
    match thread ser seen elems with
    | None => None
    | Some (out, seen') => Some (VArr out, seen')
    end in
  match val with
  | VRef a =>
      match h !! a with
      | Some (OError name message stack) =>
          Some (VObj [("name", VStr name); ("message", VStr message); ("stack", stack)], seen)
      | Some (ODate iso _) => Some (tagged "Date" (VStr iso), seen)
      | Some (ORegExp text) => Some (tagged "RegExp" (VStr text), seen)
      | Some (OMap entries) =>
          match thread (on_entry ser) seen entries with
          | None => None
          | Some (out, seen') => Some (tagged "Map" (VArr out), seen')
          end
      | Some (OSet values) =>
          match thread ser seen values with
          | None => None
          | Some (out, seen') => Some (tagged "Set" (VArr out), seen')
          end
      | Some (OPlain fields) =>
          if bool_decide (a ∈ seen) then Some (circular_marker, seen)
          else fields_of (a :: seen) fields
      | Some (OArray elems) =>
          if bool_decide (a ∈ seen) then Some (circular_marker, seen)
          else elems_of (a :: seen) elems
      | None =>
          if bool_decide (a ∈ seen) then Some (circular_marker, seen)
          else Some (VObj [], a :: seen)
      end
  | VObj fields => fields_of seen fields
  | VArr elems => elems_of seen elems
  | _ => Some (val, seen)
  end.
Proof. reflexivity. Qed.

Lemma serializer_more_fuel fuel h seen v r :
  serializer fuel h seen v = Some r → serializer (S fuel) h seen v = Some r.
Proof.
  revert seen v r. induction fuel as [|fuel IH]; intros seen v r; [done|].
  intros H. rewrite serializer_S in H. rewrite (serializer_S (S fuel)). cbv zeta in *.
  assert (∀ s xs r, thread (on_field (serializer fuel h)) s xs = Some r →
                    thread (on_field (serializer (S fuel) h)) s xs = Some r) as Hf.
  { intros s xs r0. apply thread_more. intros s0 [k x] r1. unfold on_field. cbn [fst snd].
    destruct (serializer fuel h s0 x) as [[y s1]|] eqn:E; [|done].
    by rewrite (IH _ _ _ E). }
  assert (∀ s xs r, thread (on_entry (serializer fuel h)) s xs = Some r →
                    thread (on_entry (serializer (S fuel) h)) s xs = Some r) as He.
  { intros s xs r0. apply thread_more. intros s0 [k x] r1. unfold on_entry. cbn [fst snd].
    destruct (serializer fuel h s0 x) as [[y s1]|] eqn:E; [|done].
    by rewrite (IH _ _ _ E). }
  assert (∀ s xs r, thread (serializer fuel h) s xs = Some r →
                    thread (serializer (S fuel) h) s xs = Some r) as Hv.
  { intros s xs r0. apply thread_more. intros s0 x r1. apply IH. }
  destruct v as [| | | | | |a|fields|elems]; try done.
  - destruct (h !! a) as [[fields|elems|n m st|iso txt|txt|entries|values]|]; try done.
    + case_bool_decide; [done|].
      destruct (thread _ _ fields) as [[o s]|] eqn:E; [|done]. by rewrite (Hf _ _ _ E).
    + case_bool_decide; [done|].
      destruct (thread _ _ elems) as [[o s]|] eqn:E; [|done]. by rewrite (Hv _ _ _ E).
    + destruct (thread _ _ entries) as [[o s]|] eqn:E; [|done]. by rewrite (He _ _ _ E).
    + destruct (thread _ _ values) as [[o s]|] eqn:E; [|done]. by rewrite (Hv _ _ _ E).
  - destruct (thread _ _ fields) as [[o s]|] eqn:E; [|done]. by rewrite (Hf _ _ _ E).
  - destruct (thread _ _ elems) as [[o s]|] eqn:E; [|done]. by rewrite (Hv _ _ _ E).
Qed.

Lemma serializer_fixed fuel h seen v out seen' :
  plain_heap h = true → text_stacks h = true →
  serializer fuel h seen v = Some (out, seen') →
  ∀ h' s, serializer (S fuel) h' s out = Some (out, s).
Proof.
  intros Hh Hs. revert seen v out seen'.
  induction fuel as [|fuel IH]; intros seen v out seen'; [done|].
  rewrite serializer_S. cbv zeta.
  assert (∀ s fields out s',
            thread (on_field (serializer fuel h)) s fields = Some (out, s') →
            ∀ h' s0, serializer (S (S fuel)) h' s0 (VObj out) = Some (VObj out, s0)) as Hfields.
  { intros s fields o s' Ht h' s0.
    change (serializer (S (S fuel)) h' s0 (VObj o))
      with (match thread (on_field (serializer (S fuel) h')) s0 o with
            | None => None
            | Some (out, seen') => Some (VObj out, seen')
            end).
    rewrite thread_fixed; [done|].
    eapply (thread_Forall _ (λ kv, ∀ s, on_field (serializer (S fuel) h') s kv = Some (kv, s)));
      [|exact Ht].
    intros s1 [k x] [k' y] s2. unfold on_field. cbn [fst snd].
    destruct (serializer fuel h s1 x) as [[y' s3]|] eqn:E; [|done].
    intros [= <- <- <-] s4. by rewrite (IH _ _ _ _ E). }
  assert (∀ s elems out s',
            thread (serializer fuel h) s elems = Some (out, s') →
            ∀ h' s0, serializer (S (S fuel)) h' s0 (VArr out) = Some (VArr out, s0)) as Helems.
  { intros s elems o s' Ht h' s0.
    change (serializer (S (S fuel)) h' s0 (VArr o))
      with (match thread (serializer (S fuel) h') s0 o with
            | None => None
            | Some (out, seen') => Some (VArr out, seen')
            end).
    rewrite thread_fixed; [done|].
    eapply (thread_Forall _ (λ y, ∀ s, serializer (S fuel) h' s y = Some (y, s))); [|exact Ht].
    intros s1 x y s2 E s4. by eapply IH. }
  destruct v as [| | | | | |a|fields|elems]; try (by intros [= <- <-]).
  - destruct (h !! a) as [o|] eqn:Ha.
    + pose proof (plain_heap_lookup h a o Hh Ha) as Ho.
      destruct o as [fields|elems|n m st|iso txt|txt|entries|values]; try done.
      * case_bool_decide; [by intros [= <- <-]|].
        destruct (thread _ _ fields) as [[o s]|] eqn:E; [|done].
        intros [= <- <-]. by eapply Hfields.
      * case_bool_decide; [by intros [= <- <-]|].
        destruct (thread _ _ elems) as [[o s]|] eqn:E; [|done].
        intros [= <- <-]. by eapply Helems.
      * intros [= <- <-] h' s. pose proof (text_stacks_lookup _ _ _ _ _ Hs Ha).
        by destruct st.
      * by intros [= <- <-].
      * by intros [= <- <-].
    + case_bool_decide; by intros [= <- <-].
  - destruct (thread _ _ fields) as [[o s]|] eqn:E; [|done].
    intros [= <- <-]. by eapply Hfields.
  - destruct (thread _ _ elems) as [[o s]|] eqn:E; [|done].
    intros [= <- <-]. by eapply Helems.
Qed.

(** X21: on such a heap, with a stack deeper than the heap by two,
    serializing what [safeSerialize] yielded yields it again. *)
Theorem safeSerialize_is_idempotent rt v :
  plain_heap (heap rt) = true → text_stacks (heap rt) = true → flat v = true →
  (length (heap rt) + 1 < stackLimit rt)%nat →
  safeSerialize rt (safeSerialize rt v) = safeSerialize rt v.
Proof.
  intros Hh Hs Hv Hfuel.
  destruct (stackLimit rt) as [|L] eqn:HL; [lia|].
  destruct (serializer_returns L (heap rt) [] v Hh Hv) as (out & s & E).
  { pose proof (unseen_le (heap rt) []). lia. }
  unfold safeSerialize. rewrite HL.
  rewrite (serializer_more_fuel _ _ _ _ _ E).
  by rewrite (serializer_fixed _ _ _ _ _ _ Hh Hs E).
Qed.

Lemma safeSerialize_is_idempotent_witness :
  safeSerialize (runtime_of cyclic_heap) (safeSerialize (runtime_of cyclic_heap) (VRef 0)) =
  safeSerialize (runtime_of cyclic_heap) (VRef 0).
Proof.
  apply (safeSerialize_is_idempotent (runtime_of cyclic_heap) (VRef 0)).
  - reflexivity.
  - reflexivity.
  - reflexivity.
  - simpl. lia.
Defined.

Lemma json_fields_Forall (g : JsVal → Jsonified) (P : JsVal → Prop) fields out :
  (∀ v v', g v = JValue v' → P v') →
  json_fields g fields = inr out → Forall (λ kv, P kv.2) out.
Proof.
  intros Hg. revert out. induction fields as [|[k v] rest IH]; intros out; simpl.
  - by intros [= <-].
  - destruct (g v) as [e| |v'] eqn:E; [done|by apply IH|].
    destruct (json_fields g rest) as [e|out']; [done|].
    intros [= <-]. constructor; [by eapply Hg|by apply IH].
Qed.

Lemma json_elems_Forall (g : JsVal → Jsonified) (P : JsVal → Prop) elems out :
  (∀ v v', g v = JValue v' → P v') →
  (∀ v, g v = JOmit → P VNull) →
  json_elems g elems = inr out → Forall P out.
Proof.
  intros Hg Ho. revert out. induction elems as [|v rest IH]; intros out; simpl.
  - by intros [= <-].
  - destruct (g v) as [e| |v'] eqn:E; [done| |].
    + destruct (json_elems g rest) as [e|out']; [done|].
      intros [= <-]. constructor; [by eapply Ho|by apply IH].
    + destruct (json_elems g rest) as [e|out']; [done|].
      intros [= <-]. constructor; [by eapply Hg|by apply IH].
Qed.

Lemma json_is_fixed fuel h path v v' :
  jsonify fuel h path v = JValue v' →
  ∀ fuel' h' seen, (fuel ≤ fuel')%nat → serializer fuel' h' seen v' = Some (v', seen).
Proof.
  revert path v v'. induction fuel as [|fuel IH]; intros path v v' H; [done|].
  intros [|fuel'] h' seen Hle; [lia|].
  cbn [jsonify] in H.
  assert (∀ path fields out, json_fields (jsonify fuel h path) fields = inr out →
            serializer (S fuel') h' seen (VObj out) = Some (VObj out, seen)) as Hfields.
  { intros p fields out Hj.
    change (serializer (S fuel') h' seen (VObj out))
      with (match thread (on_field (serializer fuel' h')) seen out with
            | None => None
            | Some (out, seen') => Some (VObj out, seen')
            end).
    rewrite thread_fixed; [done|].
    eapply Forall_impl;
      [apply (json_fields_Forall (jsonify fuel h p)
                (λ y, ∀ s, serializer fuel' h' s y = Some (y, s)) fields out); [|exact Hj]|].
    - intros x y Hx s. eapply IH; [exact Hx|lia].
    - intros [k y] Hy s. unfold on_field. cbn [fst snd] in *. by rewrite Hy. }
  assert (∀ path elems out, json_elems (jsonify fuel h path) elems = inr out →
            serializer (S fuel') h' seen (VArr out) = Some (VArr out, seen)) as Helems.
  { intros p elems out Hj.
    change (serializer (S fuel') h' seen (VArr out))
      with (match thread (serializer fuel' h') seen out with
            | None => None
            | Some (out, seen') => Some (VArr out, seen')
            end).
    rewrite thread_fixed; [done|].
    apply (json_elems_Forall (jsonify fuel h p)
             (λ y, ∀ s, serializer fuel' h' s y = Some (y, s)) elems out); [| |exact Hj].
    - intros x y Hx s. eapply IH; [exact Hx|lia].
    - intros x Hx s. destruct fuel; [done|]. destruct fuel'; [lia|]. done. }
  destruct v as [| | | | | |a|fields|elems]; try done; try (by injection H as <-).
  - destruct (h !! a) as [[fields|elems|n m st|iso txt|txt|entries|values]|];
      try (by injection H as <-).
    + case_bool_decide; [done|].
      destruct (json_fields _ fields) as [e|out] eqn:E; [done|].
      injection H as <-. by eapply Hfields.
    + case_bool_decide; [done|].
      destruct (json_elems _ elems) as [e|out] eqn:E; [done|].
      injection H as <-. by eapply Helems.
  - destruct (json_fields _ fields) as [e|out] eqn:E; [done|].
    injection H as <-. by eapply Hfields.
  - destruct (json_elems _ elems) as [e|out] eqn:E; [done|].
    injection H as <-. by eapply Helems.
Qed.

(** X19: a record that was JSON encoded by a runtime is stored unchanged by
    [addEntry] when it is loaded again (with a stack at least as deep),
    except that falsy data ([null], [false], [0], empty text) is dropped. *)
Theorem hydrated_record_is_stored_as_persisted rt rt' e p :
  persisted rt e = inr p →
  (stackLimit rt ≤ stackLimit rt')%nat →
  InMemoryCoreLogger.stored rt' p =
  mkEntry (timestamp p) (level p) (message p)
    (if truthy (data p) then data p else VUndefined) (source p).
Proof.
  unfold persisted. intros H Hle. unfold InMemoryCoreLogger.stored. f_equal.
  destruct (jsonify _ _ _ (data e)) as [x| |v] eqn:E; [done| |]; injection H as <-.
  - done.
  - cbn [data]. destruct (truthy v); [|done].
    unfold safeSerialize. by rewrite (json_is_fixed _ _ _ _ _ E _ _ _ Hle).
Qed.

Lemma hydrated_record_is_stored_as_persisted_witness :
  let p := mkEntry "2023-01-01T00:00:00.000Z" INFO "saved" (VObj [("id", VNum 7)]) None in
  InMemoryCoreLogger.stored (runtime_of []) p =
  mkEntry (timestamp p) (level p) (message p)
    (if truthy (data p) then data p else VUndefined) (source p).
Proof.
  apply (hydrated_record_is_stored_as_persisted (runtime_of []) (runtime_of [])
           (mkEntry "2023-01-01T00:00:00.000Z" INFO "saved" (VObj [("id", VNum 7)]) None)
           (mkEntry "2023-01-01T00:00:00.000Z" INFO "saved" (VObj [("id", VNum 7)]) None)).
  - reflexivity.
  - simpl. lia.
Defined.

(** ** JSON text *)










(** ** The serializer of LoggingService *)













(** X23: [LoggingService.safeSerialize] turns a [Date] into its ISO text:
    [JSON.stringify] calls [toJSON] before the replacer, whose [Date] branch
    is therefore never taken. The serializer of the sinks yields
    [{ __type: 'Date', value }]. *)
Theorem service_safeSerialize_renders_dates_as_text rt a iso text :
  heap rt !! a = Some (ODate iso text) →
  (0 < stackLimit rt)%nat →
  LoggingService.safeSerialize rt (VRef a) = VStr iso ∧
  safeSerialize rt (VRef a) = tagged "Date" (VStr iso).
Proof.
  intros Ha Hfuel. unfold LoggingService.safeSerialize, safeSerialize.
  destruct (stackLimit rt) as [|L]; [lia|]. cbn. by rewrite Ha.
Qed.

Lemma service_safeSerialize_renders_dates_as_text_witness :
  let rt := runtime_of [ODate "2023-01-01T00:00:00.000Z" "Sun Jan 01 2023 00:00:00 GMT+0000"] in
  LoggingService.safeSerialize rt (VRef 0) = VStr "2023-01-01T00:00:00.000Z" ∧
  safeSerialize rt (VRef 0) = tagged "Date" (VStr "2023-01-01T00:00:00.000Z").
Proof.
  apply (service_safeSerialize_renders_dates_as_text
           (runtime_of [ODate "2023-01-01T00:00:00.000Z" "Sun Jan 01 2023 00:00:00 GMT+0000"])
           0 "2023-01-01T00:00:00.000Z" "Sun Jan 01 2023 00:00:00 GMT+0000").
  - reflexivity.
  - simpl. lia.
Defined.

(** ** getLogsAsString *)

Lemma stored_data_is_no_error rt e h :
  is_error h (data (InMemoryCoreLogger.stored rt e)) = false.
Proof.
  unfold InMemoryCoreLogger.stored. cbn [data]. destruct (truthy (data e)); [|done].
  unfold safeSerialize.
  destruct (serializer _ _ _ (data e)) as [[out s]|] eqn:E; [|done].
  destruct (stackLimit rt) as [|fuel]; [done|].
  rewrite serializer_S in E. cbv zeta in E.
  destruct (data e) as [| | | | | |a|fields|elems]; simplify_eq; try done.
  - destruct (heap rt !! a) as [[fields|elems|n m st|iso txt|txt|entries|values]|];
      repeat (case_bool_decide || case_match); by simplify_eq.
  - by repeat case_match; simplify_eq.
  - by repeat case_match; simplify_eq.
Qed.











Example export_of_one_record :
  let s := after_info (MText "saved") (VObj [("id", VNum 7)])
             (initialized sinks_off (unused, world_of [])) in
  LoggingService.getLogsAsString (prior s.1) None s.2 =
  inr ("[2023-01-01T00:00:00.000Z] [INFO] saved | Data: {" +:+
       QuoteJSONString "id" +:+ ":7} | Source: UserService.login").
Proof. reflexivity. Qed.
